(** * TimedCache: an in-memory cache with expiration (timedcache.go)

    A shallow embedding of the Go package [timedcache] and the proofs of
    its specification.  The Go methods are written once, as programs over
    the primitive actions they perform on their receiver (locking the
    mutex, reading the clock, reading and writing the map).  The programs
    are then given two readings:

    - [run], the sequential one: a whole call executed against the
      receiver, as a caller that is alone observes it;
    - [gstep], the interleaving one: goroutines that take one primitive
      action at a time on a shared heap, where receivers are pointers to
      struct variables and maps are references. *)

From Stdlib Require Import ZArith Lia.
From stdpp Require Import base option list gmap strings fin_maps.

Local Open Scope Z_scope.

(** ** Time

    [time.Time] values are instants, counted in nanoseconds from a fixed
    epoch; [time.Duration] is a signed number of nanoseconds.  All instants
    of the package come from [time.Now().UTC()], which drops the monotonic
    reading, so [Add] and [Before] are wall-clock arithmetic; the clock
    readings and the durations added to them are far from the range where
    [time.Time] saturates, and the arithmetic is exact. *)

Definition Time : Type := Z.
Definition Duration : Type := Z.

Definition Nanosecond : Duration := 1.
Definition Millisecond : Duration := 1000000.
Definition Second : Duration := 1000 * Millisecond.
Definition Minute : Duration := 60 * Second.
Definition Hour : Duration := 60 * Minute.

(** [t.Add(d)] *)
Definition Add (t : Time) (d : Duration) : Time := t + d.

(** [t.Before(u)] *)
Definition Before (t u : Time) : bool := t <? u.

(** ** Values

    [interface{}] is either [nil] or a dynamic value; [error] is either
    [nil] or an error made by [errors.New] from a message. *)

Definition iface (V : Type) : Type := option V.

Inductive error : Type :=
| no_error
| errors_New (msg : string).

Definition item_not_found : error := errors_New "Item not found".

Section Model.

Variable V : Type.

(** ** Data (timedcache.go, lines 25-40) *)

Record cacheItem : Type := mkItem {
  Content : iface V;
  ExpiresAt : Time;
  KeepRefreshing : bool;
  RefreshBy : Duration
}.

(** [theItem.ExpiresAt = t] on a local copy of an item. *)
Definition set_ExpiresAt (t : Time) (it : cacheItem) : cacheItem :=
  {| Content := Content it; ExpiresAt := t;
     KeepRefreshing := KeepRefreshing it; RefreshBy := RefreshBy it |}.

(** The receiver of a method, as the method sees it: the struct it points
    to, with the map that [items] refers to, and the state of [mu]
    ([true]: locked).  Receivers are built by [New] and
    [NewWithCustomInterval], whose [items] is a map made by [make], never
    the nil map. *)
Record TimedCache : Type := mkCache {
  items : gmap string cacheItem;
  interval : Duration;
  mu : bool
}.

Definition set_items (m : gmap string cacheItem) (tc : TimedCache) : TimedCache :=
  {| items := m; interval := interval tc; mu := mu tc |}.

Definition set_mu (b : bool) (tc : TimedCache) : TimedCache :=
  {| items := items tc; interval := interval tc; mu := b |}.

(** ** Programs

    What a method does to its receiver [tc], one primitive at a time. *)

Inductive prog (A : Type) : Type :=
| Ret (a : A)
| Lock (k : prog A)                                        (* tc.mu.Lock() *)
| Unlock (k : prog A)                                      (* tc.mu.Unlock() *)
| Now (k : Time -> prog A)                                 (* time.Now().UTC() *)
| Sleep (d : Duration) (k : prog A)                        (* time.Sleep(d) *)
| GetInterval (k : Duration -> prog A)                     (* tc.interval *)
| MapLoad (key : string) (k : option cacheItem -> prog A)  (* v, ok := tc.items[key] *)
| MapStore (key : string) (it : cacheItem) (k : prog A)    (* tc.items[key] = it *)
| MapDelete (key : string) (k : prog A)                    (* delete(tc.items, key) *)
| MapKeys (k : list string -> prog A).                     (* the keys a range visits *)

Arguments Ret {A} a.
Arguments Lock {A} k.
Arguments Unlock {A} k.
Arguments Now {A} k.
Arguments Sleep {A} d k.
Arguments GetInterval {A} k.
Arguments MapLoad {A} key k.
Arguments MapStore {A} key it k.
Arguments MapDelete {A} key k.
Arguments MapKeys {A} k.

Fixpoint bind {A B : Type} (p : prog A) (f : A -> prog B) : prog B :=
  match p with
  | Ret a => f a
  | Lock k => Lock (bind k f)
  | Unlock k => Unlock (bind k f)
  | Now k => Now (fun t => bind (k t) f)
  | Sleep d k => Sleep d (bind k f)
  | GetInterval k => GetInterval (fun d => bind (k d) f)
  | MapLoad key k => MapLoad key (fun r => bind (k r) f)
  | MapStore key it k => MapStore key it (bind k f)
  | MapDelete key k => MapDelete key (bind k f)
  | MapKeys k => MapKeys (fun ks => bind (k ks) f)
  end.

Definition lock : prog unit := Lock (Ret tt).
Definition unlock : prog unit := Unlock (Ret tt).
Definition time_Now : prog Time := Now Ret.
Definition time_Sleep (d : Duration) : prog unit := Sleep d (Ret tt).
Definition get_interval : prog Duration := GetInterval Ret.
Definition map_load (key : string) : prog (option cacheItem) := MapLoad key Ret.
Definition map_store (key : string) (it : cacheItem) : prog unit :=
  MapStore key it (Ret tt).
Definition map_delete (key : string) : prog unit := MapDelete key (Ret tt).

#[global] Instance prog_ret : MRet prog := fun A a => Ret a.
#[global] Instance prog_bind : MBind prog := fun A B f p => bind p f.

(** [for key, curItem := range tc.items { body }].  Go visits the entries
    in an unspecified order, and an entry removed before it is reached is
    not visited: the loop walks the keys the map has when it starts and
    reads each entry at the time of its visit. *)
Fixpoint range_from (keys : list string)
    (body : string -> cacheItem -> prog unit) : prog unit :=
  match keys with
  | [] => Ret tt
  | key :: rest =>
      r ← map_load key;
      match r with
      | Some curItem => body key curItem;; range_from rest body
      | None => range_from rest body
      end
  end.

Definition range (body : string -> cacheItem -> prog unit) : prog unit :=
  MapKeys (fun keys => range_from keys body).

(** ** The methods (timedcache.go, lines 67-148) *)

(** [Put]: the composite literal leaves [RefreshBy] at its zero value. *)
Definition Put (key : string) (content : iface V) (duration : Duration)
    : prog unit :=
  lock ;;
  t ← time_Now;
  map_store key {| Content := content;
                   ExpiresAt := Add t duration;
                   KeepRefreshing := false;
                   RefreshBy := 0 |} ;;
  unlock.

Definition PutRefreshing (key : string) (content : iface V)
    (duration : Duration) : prog unit :=
  lock ;;
  t ← time_Now;
  map_store key {| Content := content;
                   ExpiresAt := Add t duration;
                   KeepRefreshing := true;
                   RefreshBy := duration |} ;;
  unlock.

Definition Delete (key : string) : prog unit :=
  lock ;;
  map_delete key ;;
  unlock.

Definition Get (key : string) : prog (iface V * error) :=
  lock ;;
  r ← map_load key;
  match r with
  | Some theItem =>
      theItem ← (if KeepRefreshing theItem then
                    t ← time_Now;
                    let theItem := set_ExpiresAt (Add t (RefreshBy theItem)) theItem in
                    map_store key theItem ;;
                    Ret theItem
                  else Ret theItem);
      unlock ;;
      Ret (Content theItem, no_error)
  | None =>
      unlock ;;
      Ret (None, item_not_found)
  end.

Definition KeyExists (key : string) : prog bool :=
  lock ;;
  r ← map_load key;
  match r with
  | Some _ => unlock ;; Ret true
  | None => unlock ;; Ret false
  end.

Definition RemoveExpired : prog unit :=
  lock ;;
  timeNow ← time_Now;
  range (fun key curItem =>
           if Before (ExpiresAt curItem) timeNow
           then map_delete key
           else Ret tt) ;;
  unlock.

(** One turn of the loop of [startInterval]; the loop itself never ends
    and is unrolled by the scheduler ([gstep] below). *)
Definition startInterval_body : prog unit :=
  d ← get_interval;
  time_Sleep d ;;
  RemoveExpired.

(** ** Sequential execution of a call

    [now] is what the clock shows during the call (no method reads it
    twice) and [range_order] the order in which a range visits the keys. *)

Inductive outcome (A : Type) : Type :=
| Returned (a : A) (tc : TimedCache)
| Blocked                       (* waits for a mutex nobody will release *)
| Fatal (msg : string).         (* the runtime aborts *)

Arguments Returned {A} a tc.
Arguments Blocked {A}.
Arguments Fatal {A} msg.

Variable range_order : gmap string cacheItem -> list string.

Fixpoint run {A : Type} (now : Time) (p : prog A) (tc : TimedCache)
    : outcome A :=
  match p with
  | Ret a => Returned a tc
  | Lock k => if mu tc then Blocked else run now k (set_mu true tc)
  | Unlock k =>
      if mu tc then run now k (set_mu false tc)
      else Fatal "sync: unlock of unlocked mutex"
  | Now k => run now (k now) tc
  | Sleep _ k => run now k tc
  | GetInterval k => run now (k (interval tc)) tc
  | MapLoad key k => run now (k (items tc !! key)) tc
  | MapStore key it k => run now k (set_items (<[key := it]> (items tc)) tc)
  | MapDelete key k => run now k (set_items (delete key (items tc)) tc)
  | MapKeys k => run now (k (range_order (items tc))) tc
  end.

(** How many times the call reads the clock. *)
Fixpoint clock_reads {A : Type} (now : Time) (p : prog A) (tc : TimedCache)
    : nat :=
  match p with
  | Ret _ => 0%nat
  | Lock k => if mu tc then 0%nat else clock_reads now k (set_mu true tc)
  | Unlock k => if mu tc then clock_reads now k (set_mu false tc) else 0%nat
  | Now k => S (clock_reads now (k now) tc)
  | Sleep _ k => clock_reads now k tc
  | GetInterval k => clock_reads now (k (interval tc)) tc
  | MapLoad key k => clock_reads now (k (items tc !! key)) tc
  | MapStore key it k =>
      clock_reads now k (set_items (<[key := it]> (items tc)) tc)
  | MapDelete key k => clock_reads now k (set_items (delete key (items tc)) tc)
  | MapKeys k => clock_reads now (k (range_order (items tc))) tc
  end.

(** ** Sequences of calls made by one caller *)

Inductive call : Type :=
| call_Put (key : string) (content : iface V) (duration : Duration)
| call_PutRefreshing (key : string) (content : iface V) (duration : Duration)
| call_Delete (key : string)
| call_Get (key : string)
| call_KeyExists (key : string)
| call_RemoveExpired.

(** What a call hands back to its caller. *)
Inductive result : Type :=
| res_none
| res_value (content : iface V) (err : error)
| res_bool (b : bool).

Definition call_prog (c : call) : prog result :=
  match c with
  | call_Put key content duration => Put key content duration;; Ret res_none
  | call_PutRefreshing key content duration =>
      PutRefreshing key content duration;; Ret res_none
  | call_Delete key => Delete key;; Ret res_none
  | call_Get key => r ← Get key; Ret (res_value r.1 r.2)
  | call_KeyExists key => b ← KeyExists key; Ret (res_bool b)
  | call_RemoveExpired => RemoveExpired;; Ret res_none
  end.

(** The calls are made one after the other, each at its own clock
    reading. *)
Fixpoint run_calls (cs : list (Time * call)) (tc : TimedCache)
    : outcome (list result) :=
  match cs with
  | [] => Returned [] tc
  | (now, c) :: rest =>
      match run now (call_prog c) tc with
      | Returned r tc' =>
          match run_calls rest tc' with
          | Returned rs tc'' => Returned (r :: rs) tc''
          | Blocked => Blocked
          | Fatal msg => Fatal msg
          end
      | Blocked => Blocked
      | Fatal msg => Fatal msg
      end
  end.

(** The calls that neither store under [key] nor delete it: [Get] and
    [KeyExists] of any key, [Delete] of another key, [RemoveExpired]. *)
Definition leaves_entry (key : string) (c : call) : bool :=
  match c with
  | call_Get _ | call_KeyExists _ | call_RemoveExpired => true
  | call_Delete k => bool_decide (k ≠ key)
  | call_Put _ _ _ | call_PutRefreshing _ _ _ => false
  end.

(** The table after the loop of [RemoveExpired] has visited [key]. *)
Definition sweep_visit (timeNow : Time) (m : gmap string cacheItem)
    (key : string) : gmap string cacheItem :=
  match m !! key with
  | Some curItem =>
      if Before (ExpiresAt curItem) timeNow then delete key m else m
  | None => m
  end.

(** ** Lock discipline of a program

    [bracketed held held' p]: started with the mutex of the receiver held
    by the caller ([held = true]) or not, [p] reads and writes the map
    only while it holds the mutex, never locks it twice, never unlocks
    what it has not locked, sleeps only without it, and returns with the
    mutex held ([held' = true]) or not. *)

Inductive bracketed {A : Type} : bool -> bool -> prog A -> Prop :=
| bracketed_Ret held a : bracketed held held (Ret a)
| bracketed_Lock held' k :
    bracketed true held' k -> bracketed false held' (Lock k)
| bracketed_Unlock held' k :
    bracketed false held' k -> bracketed true held' (Unlock k)
| bracketed_Now held held' k :
    (forall t, bracketed held held' (k t)) -> bracketed held held' (Now k)
| bracketed_Sleep held' d k :
    bracketed false held' k -> bracketed false held' (Sleep d k)
| bracketed_GetInterval held held' k :
    (forall d, bracketed held held' (k d)) ->
    bracketed held held' (GetInterval k)
| bracketed_MapLoad held' key k :
    (forall r, bracketed true held' (k r)) ->
    bracketed true held' (MapLoad key k)
| bracketed_MapStore held' key it k :
    bracketed true held' k -> bracketed true held' (MapStore key it k)
| bracketed_MapDelete held' key k :
    bracketed true held' k -> bracketed true held' (MapDelete key k)
| bracketed_MapKeys held' k :
    (forall ks, bracketed true held' (k ks)) ->
    bracketed true held' (MapKeys k).

(** ** Goroutines on a shared heap

    A Go map is a reference to a table; a [TimedCache] is a struct value
    that holds such a reference, an interval and, by value, a mutex.  A
    method reaches its receiver through a pointer to a struct variable. *)

Definition mapref : Type := nat.
Definition ptr : Type := nat.

Record TimedCache_value : Type := mkValue {
  v_items : mapref;
  v_interval : Duration;
  v_mu : bool
}.

Record heap : Type := mkHeap {
  tables : gmap mapref (gmap string cacheItem);
  vars : gmap ptr TimedCache_value
}.

(** The receiver behind pointer [p], as a method sees it. *)
Definition deref (h : heap) (p : ptr) : option TimedCache :=
  match vars h !! p with
  | Some v =>
      match tables h !! v_items v with
      | Some m => Some {| items := m; interval := v_interval v; mu := v_mu v |}
      | None => None
      end
  | None => None
  end.

(** Writing back what a primitive did to the receiver behind [p]: the
    table goes to the map the struct refers to, the mutex state to the
    struct variable itself. *)
Definition commit (h : heap) (p : ptr) (tc : TimedCache) : heap :=
  match vars h !! p with
  | Some v =>
      {| tables := <[v_items v := items tc]> (tables h);
         vars := <[p := {| v_items := v_items v;
                           v_interval := interval tc;
                           v_mu := mu tc |}]> (vars h) |}
  | None => h
  end.

(** One primitive of a program; [None] when the program has returned,
    waits for the mutex, or aborts. *)
Definition step1 {A : Type} (now : Time) (p : prog A) (tc : TimedCache)
    : option (prog A * TimedCache) :=
  match p with
  | Ret _ => None
  | Lock k => if mu tc then None else Some (k, set_mu true tc)
  | Unlock k => if mu tc then Some (k, set_mu false tc) else None
  | Now k => Some (k now, tc)
  | Sleep _ k => Some (k, tc)
  | GetInterval k => Some (k (interval tc), tc)
  | MapLoad key k => Some (k (items tc !! key), tc)
  | MapStore key it k => Some (k, set_items (<[key := it]> (items tc)) tc)
  | MapDelete key k => Some (k, set_items (delete key (items tc)) tc)
  | MapKeys k => Some (k (range_order (items tc)), tc)
  end.

(** A goroutine runs [code] on the receiver [recv]; when [code] has
    returned and [loop] is set, it starts over ([for { ... }]).
    [critical] records whether the goroutine is between a [Lock] and the
    [Unlock] that follows; the semantics never reads it. *)
Record goroutine : Type := mkGo {
  recv : ptr;
  code : prog result;
  loop : option (prog result);
  critical : bool
}.

Definition enters {A : Type} (p : prog A) (held : bool) : bool :=
  match p with
  | Lock _ => true
  | Unlock _ => false
  | _ => held
  end.

Definition config : Type := heap * list goroutine.

(** Goroutine [i] takes one step while the clock shows [now]. *)
Definition gstep (now : Time) (i : nat) (c : config) : option config :=
  let '(h, gs) := c in
  match gs !! i with
  | Some g =>
      match code g, loop g with
      | Ret _, Some body =>
          Some (h, <[i := {| recv := recv g; code := body;
                             loop := loop g; critical := critical g |}]> gs)
      | _, _ =>
          match deref h (recv g) with
          | Some tc =>
              match step1 now (code g) tc with
              | Some (p', tc') =>
                  Some (commit h (recv g) tc',
                        <[i := {| recv := recv g; code := p';
                                  loop := loop g;
                                  critical := enters (code g) (critical g) |}]> gs)
              | None => None
              end
          | None => None
          end
      end
  | None => None
  end.

(** A schedule: which goroutine steps, and what the clock shows then. *)
Fixpoint gsteps (sched : list (nat * Time)) (c : config) : option config :=
  match sched with
  | [] => Some c
  | (i, now) :: rest =>
      match gstep now i c with
      | Some c' => gsteps rest c'
      | None => None
      end
  end.

(** The loop of [startInterval], as the goroutine that runs it. *)
Definition startInterval (tc : ptr) : goroutine :=
  {| recv := tc;
     code := startInterval_body;; Ret res_none;
     loop := Some (startInterval_body;; Ret res_none);
     critical := false |}.

(** [NewWithCustomInterval], lines 57-61: [make] allocates the table,
    [newCache] is a struct variable of its own, with a free mutex, and
    [go newCache.startInterval()] starts the sweep on [&newCache].  The
    pointer is what the goroutine keeps; the caller never sees it. *)
Definition NewWithCustomInterval_go (interval : Duration) (c : config)
    : ptr * config :=
  let '(h, gs) := c in
  let m : mapref := fresh (dom (tables h)) in
  let newCache : ptr := fresh (dom (vars h)) in
  let h' := {| tables := <[m := ∅]> (tables h);
               vars := <[newCache := {| v_items := m;
                                        v_interval := interval;
                                        v_mu := false |}]> (vars h) |} in
  (newCache, (h', gs ++ [startInterval newCache])).

(** [New], lines 45-49: the same with [time.Minute]. *)
Definition New_go (c : config) : ptr * config :=
  let '(h, gs) := c in
  let m : mapref := fresh (dom (tables h)) in
  let newCache : ptr := fresh (dom (vars h)) in
  let h' := {| tables := <[m := ∅]> (tables h);
               vars := <[newCache := {| v_items := m;
                                        v_interval := Minute;
                                        v_mu := false |}]> (vars h) |} in
  (newCache, (h', gs ++ [startInterval newCache])).

(** [return newCache] (lines 50 and 62): the caller gets the struct as it
    is at that moment: the map reference, the interval and the mutex,
    copied, in whatever state the mutex is then. *)
Definition return_copy (newCache : ptr) (c : config)
    : option TimedCache_value :=
  vars c.1 !! newCache.

(** The constructors (lines 56-63 and 44-51).  Nothing orders the copy
    made by [return] after or before the steps of the sweep that the
    [go] statement has started: [between] is what the goroutines do
    after the [go] statement and before the copy, [[]] when the caller
    returns before any of them takes a step. *)
Definition NewWithCustomInterval (interval : Duration)
    (between : list (nat * Time)) (c : config)
    : option (TimedCache_value * config) :=
  let '(newCache, c1) := NewWithCustomInterval_go interval c in
  match gsteps between c1 with
  | Some c2 =>
      match return_copy newCache c2 with
      | Some value => Some (value, c2)
      | None => None
      end
  | None => None
  end.

Definition New (between : list (nat * Time)) (c : config)
    : option (TimedCache_value * config) :=
  let '(newCache, c1) := New_go c in
  match gsteps between c1 with
  | Some c2 =>
      match return_copy newCache c2 with
      | Some value => Some (value, c2)
      | None => None
      end
  | None => None
  end.

(** [sessionStore = value]: the caller keeps the struct value in a
    variable of its own and calls the methods on its address. *)
Definition assign_var (value : TimedCache_value) (c : config) : ptr * config :=
  let '(h, gs) := c in
  let p : ptr := fresh (dom (vars h)) in
  (p, ({| tables := tables h; vars := <[p := value]> (vars h) |}, gs)).

(** [go] a list of calls on the receiver behind [p]. *)
Fixpoint calls_prog (cs : list call) : prog result :=
  match cs with
  | [] => Ret res_none
  | c :: rest => call_prog c;; calls_prog rest
  end.

Definition spawn (p : ptr) (cs : list call) (c : config) : config :=
  let '(h, gs) := c in
  (h, gs ++ [{| recv := p; code := calls_prog cs; loop := None;
                critical := false |}]).

Definition empty_config : config := ({| tables := ∅; vars := ∅ |}, []).

(** Goroutines [i] and [j] are both inside their critical sections, on
    receivers that refer to the same table. *)
Definition overlap (c : config) (i j : nat) : Prop :=
  exists gi gj vi vj,
    c.2 !! i = Some gi /\ c.2 !! j = Some gj /\
    critical gi = true /\ critical gj = true /\
    vars c.1 !! recv gi = Some vi /\ vars c.1 !! recv gj = Some vj /\
    v_items vi = v_items vj.

(** What holds of the goroutines of a configuration when each runs
    bracketed code: one that is inside its critical section finds the
    mutex of its receiver locked. *)
Definition well_locked (c : config) : Prop :=
  forall i g, c.2 !! i = Some g ->
    bracketed (critical g) false (code g) /\
    (forall body, loop g = Some body -> bracketed false false body) /\
    (critical g = true ->
     exists v, vars c.1 !! recv g = Some v /\ v_mu v = true).

(** No two goroutines that call through the same pointer are inside
    their critical sections together. *)
Definition exclusive (c : config) : Prop :=
  forall i j gi gj,
    c.2 !! i = Some gi -> c.2 !! j = Some gj ->
    critical gi = true -> critical gj = true ->
    recv gi = recv gj -> i = j.

End Model.

Arguments mkItem {V} _ _ _ _.
Arguments Content {V} _.
Arguments ExpiresAt {V} _.
Arguments KeepRefreshing {V} _.
Arguments RefreshBy {V} _.
Arguments set_ExpiresAt {V} _ _.
Arguments mkCache {V} _ _ _.
Arguments items {V} _.
Arguments interval {V} _.
Arguments mu {V} _.
Arguments set_items {V} _ _.
Arguments set_mu {V} _ _.
Arguments Ret {V A} _.
Arguments Lock {V A} _.
Arguments Unlock {V A} _.
Arguments Now {V A} _.
Arguments Sleep {V A} _ _.
Arguments GetInterval {V A} _.
Arguments MapLoad {V A} _ _.
Arguments MapStore {V A} _ _ _.
Arguments MapDelete {V A} _ _.
Arguments MapKeys {V A} _.
Arguments bind {V A B} _ _.
Arguments lock {V}.
Arguments unlock {V}.
Arguments time_Now {V}.
Arguments time_Sleep {V} _.
Arguments get_interval {V}.
Arguments map_load {V} _.
Arguments map_store {V} _ _.
Arguments map_delete {V} _.
Arguments range_from {V} _ _.
Arguments range {V} _.
Arguments Put {V} _ _ _.
Arguments PutRefreshing {V} _ _ _.
Arguments Delete {V} _.
Arguments Get {V} _.
Arguments KeyExists {V} _.
Arguments RemoveExpired {V}.
Arguments startInterval_body {V}.
Arguments Returned {V A} _ _.
Arguments Blocked {V A}.
Arguments Fatal {V A} _.
Arguments run {V} _ {A} _ _ _.
Arguments clock_reads {V} _ {A} _ _ _.
Arguments call_Put {V} _ _ _.
Arguments call_PutRefreshing {V} _ _ _.
Arguments call_Delete {V} _.
Arguments call_Get {V} _.
Arguments call_KeyExists {V} _.
Arguments call_RemoveExpired {V}.
Arguments res_none {V}.
Arguments res_value {V} _ _.
Arguments res_bool {V} _.
Arguments call_prog {V} _.
Arguments run_calls {V} _ _ _.
Arguments leaves_entry {V} _ _.
Arguments sweep_visit {V} _ _ _.
Arguments bracketed {V A} _ _ _.
Arguments mkHeap {V} _ _.
Arguments tables {V} _.
Arguments vars {V} _.
Arguments deref {V} _ _.
Arguments commit {V} _ _ _.
Arguments step1 {V} _ {A} _ _ _.
Arguments mkGo {V} _ _ _ _.
Arguments recv {V} _.
Arguments code {V} _.
Arguments loop {V} _.
Arguments critical {V} _.
Arguments enters {V A} _ _.
Arguments gstep {V} _ _ _ _.
Arguments gsteps {V} _ _ _.
Arguments startInterval {V} _.
Arguments NewWithCustomInterval_go {V} _ _.
Arguments New_go {V} _.
Arguments return_copy {V} _ _.
Arguments NewWithCustomInterval {V} _ _ _ _.
Arguments New {V} _ _ _.
Arguments assign_var {V} _ _.
Arguments calls_prog {V} _.
Arguments spawn {V} _ _ _.
Arguments empty_config {V}.
Arguments overlap {V} _ _ _.
Arguments well_locked {V} _.
Arguments exclusive {V} _.

(** ** The use of the package shown in its README

    [sessionStore = timedcache.New()], then two calls of [Put] on
    [sessionStore] from the caller's goroutine, next to the sweep that
    [New] has started; [New] returns before the sweep takes a step.
    Goroutine 0 is the sweep, goroutine 1 the caller. *)

Definition keys_in_order {V : Type} (m : gmap string (cacheItem V)) : list string :=
  (map_to_list m).*1.

Definition README_session : option (ptr * config string) :=
  match New keys_in_order [] empty_config with
  | Some (value, c) =>
      let '(sessionStore, c) := assign_var value c in
      Some (sessionStore,
            spawn sessionStore
              [call_Put "k" (Some "v1"%string) (- Nanosecond);
               call_Put "k" (Some "v2"%string) Hour] c)
  | None => None
  end.

(** The caller completes the first [Put] at time 100; the sweep wakes
    up, locks, reads the clock at 200, starts its range and reads the
    entry of "k"; the caller locks for the second [Put]. *)
Definition schedule_into_overlap : list (nat * Time) :=
  [(1%nat, 100); (1%nat, 100); (1%nat, 100); (1%nat, 100);
   (0%nat, 200); (0%nat, 200); (0%nat, 200); (0%nat, 200);
   (0%nat, 200); (0%nat, 200);
   (1%nat, 300)].

(** The caller completes the second [Put] at time 300; the sweep
    completes its visit of "k" and unlocks. *)
Definition schedule_to_the_end : list (nat * Time) :=
  [(1%nat, 300); (1%nat, 300); (1%nat, 300);
   (0%nat, 300); (0%nat, 300)].

(** ** A small cache to run the methods on

    A refreshing session entry and a fixed token entry, both due at time
    1000. *)

Definition session_item : cacheItem string :=
  mkItem (Some "alice"%string) 1000 true (30 * Minute).

Definition token_item : cacheItem string :=
  mkItem (Some "t0k3n"%string) 1000 false 0.

Definition sample_cache : TimedCache string :=
  mkCache (<["session" := session_item]> (<["token" := token_item]> ∅))
          Minute false.

(** ** What a call does to the entry of its key

    Every method but [RemoveExpired] is about one key.  [call_update]
    is what the call makes of the entry it finds there ([None]: no
    entry), and [call_result] what it returns for that entry. *)

Definition call_key {V : Type} (c : call V) : option string :=
  match c with
  | call_Put key _ _ | call_PutRefreshing key _ _ | call_Delete key
  | call_Get key | call_KeyExists key => Some key
  | call_RemoveExpired => None
  end.

Definition call_update {V : Type} (now : Time) (c : call V)
    (found : option (cacheItem V)) : option (cacheItem V) :=
  match c with
  | call_Put _ content duration =>
      Some (mkItem content (Add now duration) false 0)
  | call_PutRefreshing _ content duration =>
      Some (mkItem content (Add now duration) true duration)
  | call_Delete _ => None
  | call_Get _ =>
      match found with
      | Some theItem =>
          if KeepRefreshing theItem
          then Some (set_ExpiresAt (Add now (RefreshBy theItem)) theItem)
          else Some theItem
      | None => None
      end
  | call_KeyExists _ | call_RemoveExpired => found
  end.

Definition call_result {V : Type} (c : call V)
    (found : option (cacheItem V)) : result V :=
  match c with
  | call_Put _ _ _ | call_PutRefreshing _ _ _ | call_Delete _
  | call_RemoveExpired => res_none
  | call_Get _ =>
      match found with
      | Some theItem => res_value (Content theItem) no_error
      | None => res_value None item_not_found
      end
  | call_KeyExists _ =>
      match found with
      | Some _ => res_bool true
      | None => res_bool false
      end
  end.

(** The calls of a session that reads [key] at time [t] and lets the
    sweep run at time [s]. *)
Definition visit {V : Type} (key : string) (ts : Time * Time)
    : list (Time * call V) :=
  [(ts.1, call_Get key); (ts.2, call_RemoveExpired)].

(** ** The steps of the sweep goroutine

    [prim_steps] counts the primitives a call executes.  The loop of
    [RemoveExpired] takes one step per key it visits and one more per
    entry it deletes; a turn of [startInterval] reads the interval,
    sleeps, locks, reads the clock, starts the range, runs the loop,
    unlocks and jumps back. *)

Fixpoint prim_steps {V A : Type}
    (range_order : gmap string (cacheItem V) -> list string)
    (now : Time) (p : prog V A) (tc : TimedCache V) : nat :=
  match p with
  | Ret _ => 0%nat
  | Lock k =>
      if mu tc then 0%nat else S (prim_steps range_order now k (set_mu true tc))
  | Unlock k =>
      if mu tc then S (prim_steps range_order now k (set_mu false tc)) else 0%nat
  | Now k => S (prim_steps range_order now (k now) tc)
  | Sleep _ k => S (prim_steps range_order now k tc)
  | GetInterval k => S (prim_steps range_order now (k (interval tc)) tc)
  | MapLoad key k => S (prim_steps range_order now (k (items tc !! key)) tc)
  | MapStore key it k =>
      S (prim_steps range_order now k (set_items (<[key := it]> (items tc)) tc))
  | MapDelete key k =>
      S (prim_steps range_order now k (set_items (delete key (items tc)) tc))
  | MapKeys k => S (prim_steps range_order now (k (range_order (items tc))) tc)
  end.

Fixpoint range_steps {V : Type} (timeNow : Time) (keys : list string)
    (m : gmap string (cacheItem V)) : nat :=
  match keys with
  | [] => 0%nat
  | key :: rest =>
      match m !! key with
      | Some curItem =>
          if Before (ExpiresAt curItem) timeNow
          then S (S (range_steps timeNow rest (delete key m)))
          else S (range_steps timeNow rest m)
      | None => S (range_steps timeNow rest m)
      end
  end.

Definition turn_steps {V : Type}
    (range_order : gmap string (cacheItem V) -> list string)
    (now : Time) (m : gmap string (cacheItem V)) : nat :=
  (7 + range_steps now (range_order m) m)%nat.

(** Goroutine [i] alone, one turn at each of the clock readings
    [turns], on a table that is [m] at the start. *)
Fixpoint turns_schedule {V : Type}
    (range_order : gmap string (cacheItem V) -> list string)
    (i : nat) (turns : list Time) (m : gmap string (cacheItem V))
    : list (nat * Time) :=
  match turns with
  | [] => []
  | t :: rest =>
      replicate (turn_steps range_order t m) (i, t) ++
      turns_schedule range_order i rest
        (foldl (sweep_visit t) m (range_order m))
  end.

(** * Proofs *)

Section Sequential.

Context {V : Type}.
Variable range_order : gmap string (cacheItem V) -> list string.

(** A range visits every key of the map once, in some order. *)
Hypothesis range_order_perm :
  forall m, range_order m ≡ₚ (map_to_list m).*1.

Local Abbreviation exec := (run range_order).

(** ** The monad *)

Lemma run_bind {A B : Type} now (p : prog V A) (f : A -> prog V B) tc :
  exec now (bind p f) tc =
  match exec now p tc with
  | Returned a tc' => exec now (f a) tc'
  | Blocked => Blocked
  | Fatal msg => Fatal msg
  end.
Proof.
  revert tc.
  induction p as [a|k IH|k IH|k IH|d k IH|k IH|key k IH|key it k IH|key k IH|k IH];
    intros tc; simpl; try done.
  - destruct (mu tc); [done | apply IH].
  - destruct (mu tc); [apply IH | done].
Qed.

Lemma set_mu_unlocked (m : gmap string (cacheItem V)) tc :
  mu tc = false -> set_mu false (set_items m (set_mu true tc)) = set_items m tc.
Proof. destruct tc as [m0 i b]; simpl; intros ->; reflexivity. Qed.

Lemma set_items_id (tc : TimedCache V) : set_items (items tc) tc = tc.
Proof. by destruct tc. Qed.

Lemma set_mu_restored (tc : TimedCache V) :
  mu tc = false -> set_mu false (set_mu true tc) = tc.
Proof. destruct tc as [m0 i b]; simpl; intros ->; reflexivity. Qed.

(** ** What each method does, called with the mutex free *)

Lemma run_Put now key content duration tc :
  mu tc = false ->
  exec now (Put key content duration) tc =
  Returned tt (set_items (<[key := mkItem content (Add now duration) false 0]>
                            (items tc)) tc).
Proof.
  intros Hmu. cbn. rewrite Hmu. cbn. by rewrite set_mu_unlocked.
Qed.

Lemma run_PutRefreshing now key content duration tc :
  mu tc = false ->
  exec now (PutRefreshing key content duration) tc =
  Returned tt (set_items (<[key := mkItem content (Add now duration) true duration]>
                            (items tc)) tc).
Proof.
  intros Hmu. cbn. rewrite Hmu. cbn. by rewrite set_mu_unlocked.
Qed.

Lemma run_Delete now key tc :
  mu tc = false ->
  exec now (Delete key) tc = Returned tt (set_items (delete key (items tc)) tc).
Proof.
  intros Hmu. cbn. rewrite Hmu. cbn. by rewrite set_mu_unlocked.
Qed.

Lemma run_Get_absent now key tc :
  mu tc = false -> items tc !! key = None ->
  exec now (Get key) tc = Returned (None, item_not_found) tc.
Proof.
  intros Hmu Hk. cbn. rewrite Hmu. cbn. rewrite Hk. cbn.
  by rewrite set_mu_restored.
Qed.

Lemma run_Get_fixed now key tc theItem :
  mu tc = false -> items tc !! key = Some theItem ->
  KeepRefreshing theItem = false ->
  exec now (Get key) tc = Returned (Content theItem, no_error) tc.
Proof.
  intros Hmu Hk Hr. cbn. rewrite Hmu. cbn. rewrite Hk. cbn. rewrite Hr. cbn.
  by rewrite set_mu_restored.
Qed.

Lemma run_Get_refreshing now key tc theItem :
  mu tc = false -> items tc !! key = Some theItem ->
  KeepRefreshing theItem = true ->
  exec now (Get key) tc =
  Returned (Content theItem, no_error)
    (set_items (<[key := set_ExpiresAt (Add now (RefreshBy theItem)) theItem]>
                  (items tc)) tc).
Proof.
  intros Hmu Hk Hr. cbn. rewrite Hmu. cbn. rewrite Hk. cbn. rewrite Hr. cbn.
  by rewrite set_mu_unlocked.
Qed.

Lemma run_KeyExists now key tc :
  mu tc = false ->
  exec now (KeyExists key) tc =
  Returned (bool_decide (is_Some (items tc !! key))) tc.
Proof.
  intros Hmu. cbn. rewrite Hmu. cbn.
  destruct (items tc !! key) as [it|] eqn:Hk; cbn; rewrite set_mu_restored; try done.
Qed.

(** ** The loop of [RemoveExpired] *)

Lemma run_range_from {B : Type} now timeNow keys (f : unit -> prog V B) tc :
  exec now
    (bind (range_from keys (fun key curItem =>
             if Before (ExpiresAt curItem) timeNow
             then MapDelete key (Ret tt) else Ret tt)) f) tc =
  exec now (f tt) (set_items (foldl (sweep_visit timeNow) (items tc) keys) tc).
Proof.
  revert tc. induction keys as [|key rest IH]; intros tc.
  - cbn. by rewrite set_items_id.
  - cbn. unfold sweep_visit at 2.
    destruct (items tc !! key) as [curItem|] eqn:Hk; cbn.
    + destruct (Before (ExpiresAt curItem) timeNow); cbn.
      * rewrite (IH (set_items _ tc)). by destruct tc.
      * apply IH.
    + apply IH.
Qed.

Lemma sweep_visit_lookup timeNow (m : gmap string (cacheItem V)) key k :
  sweep_visit timeNow m key !! k =
  match m !! k with
  | Some it =>
      if bool_decide (k = key) && Before (ExpiresAt it) timeNow
      then None else Some it
  | None => None
  end.
Proof.
  unfold sweep_visit. case_bool_decide as Hk.
  - subst k. destruct (m !! key) as [it|] eqn:Hm; simpl.
    + destruct (Before (ExpiresAt it) timeNow); simpl.
      * apply lookup_delete_eq.
      * done.
    + by rewrite Hm.
  - simpl. destruct (m !! key) as [it|] eqn:Hm.
    + destruct (Before (ExpiresAt it) timeNow).
      * rewrite lookup_delete_ne by done. by destruct (m !! k).
      * by destruct (m !! k).
    + by destruct (m !! k).
Qed.

Lemma sweep_lookup timeNow keys (m : gmap string (cacheItem V)) k :
  foldl (sweep_visit timeNow) m keys !! k =
  match m !! k with
  | Some it =>
      if bool_decide (k ∈ keys) && Before (ExpiresAt it) timeNow
      then None else Some it
  | None => None
  end.
Proof.
  revert m. induction keys as [|key rest IH]; intros m; simpl.
  - by destruct (m !! k).
  - rewrite IH, sweep_visit_lookup.
    destruct (m !! k) as [it|]; [|done].
    destruct (Before (ExpiresAt it) timeNow) eqn:Hb.
    + rewrite !andb_true_r.
      destruct (decide (k = key)) as [->|Hne].
      * rewrite !bool_decide_eq_true_2; [done | left | done].
      * rewrite (bool_decide_eq_false_2 (k = key)) by done. simpl.
        rewrite Hb, andb_true_r.
        apply (f_equal (fun b : bool => if b then None else Some it)).
        apply bool_decide_ext. rewrite elem_of_cons. tauto.
    + rewrite !andb_false_r. simpl. by rewrite Hb, andb_false_r.
Qed.

Lemma range_order_elem (m : gmap string (cacheItem V)) k :
  k ∈ range_order m <-> is_Some (m !! k).
Proof.
  rewrite range_order_perm, list_elem_of_fmap. split.
  - intros [[k' it] [-> Hin]]. apply elem_of_map_to_list in Hin. by exists it.
  - intros [it Hit]. exists (k, it). split; [done|].
    by apply elem_of_map_to_list.
Qed.

Lemma run_RemoveExpired now tc :
  mu tc = false ->
  exec now RemoveExpired tc =
  Returned tt
    (set_items (foldl (sweep_visit now) (items tc) (range_order (items tc))) tc).
Proof.
  intros Hmu. cbn. rewrite Hmu. cbn.
  rewrite (run_range_from now now (range_order (items tc)) (fun _ => Unlock (Ret tt))).
  cbn. by rewrite set_mu_unlocked.
Qed.

Lemma RemoveExpired_lookup now tc k :
  foldl (sweep_visit now) (items tc) (range_order (items tc)) !! k =
  match items tc !! k with
  | Some it => if Before (ExpiresAt it) now then None else Some it
  | None => None
  end.
Proof.
  rewrite sweep_lookup.
  destruct (items tc !! k) as [it|] eqn:Hk; [|done].
  rewrite bool_decide_eq_true_2; [done|].
  apply range_order_elem. by exists it.
Qed.

(** ** Clock readings

    No call reads the clock twice, so one reading per call is all that
    [run] needs. *)

Lemma clock_reads_bind {A B : Type} now (p : prog V A) (f : A -> prog V B) tc :
  clock_reads range_order now (bind p f) tc =
  (clock_reads range_order now p tc +
   match exec now p tc with
   | Returned a tc' => clock_reads range_order now (f a) tc'
   | _ => 0
   end)%nat.
Proof.
  revert tc.
  induction p as [a|k IH|k IH|k IH|d k IH|k IH|key k IH|key it k IH|key k IH|k IH];
    intros tc; simpl; try done.
  - destruct (mu tc); [done | apply IH].
  - destruct (mu tc); [apply IH | done].
  - by rewrite IH.
Qed.

Lemma clock_reads_range_from {B : Type} now timeNow keys
    (f : unit -> prog V B) tc :
  clock_reads range_order now
    (bind (range_from keys (fun key curItem =>
             if Before (ExpiresAt curItem) timeNow
             then MapDelete key (Ret tt) else Ret tt)) f) tc =
  clock_reads range_order now (f tt)
    (set_items (foldl (sweep_visit timeNow) (items tc) keys) tc).
Proof.
  revert tc. induction keys as [|key rest IH]; intros tc.
  - cbn. by rewrite set_items_id.
  - cbn. unfold sweep_visit at 2.
    destruct (items tc !! key) as [curItem|] eqn:Hk; cbn.
    + destruct (Before (ExpiresAt curItem) timeNow); cbn.
      * rewrite (IH (set_items _ tc)). by destruct tc.
      * apply IH.
    + apply IH.
Qed.

Lemma RemoveExpired_reads_clock_once now tc :
  mu tc = false -> clock_reads range_order now RemoveExpired tc = 1%nat.
Proof.
  intros Hmu. cbn. rewrite Hmu. cbn.
  by rewrite (clock_reads_range_from now now (range_order (items tc))
                (fun _ => Unlock (Ret tt))).
Qed.

Lemma call_reads_clock_at_most_once now c tc :
  mu tc = false -> (clock_reads range_order now (call_prog c) tc <= 1)%nat.
Proof.
  intros Hmu.
  destruct c as [k v d|k v d|k|k|k|]; unfold call_prog, mbind, prog_bind;
    rewrite clock_reads_bind.
  - rewrite run_Put by done. cbn. rewrite Hmu. cbn. done.
  - rewrite run_PutRefreshing by done. cbn. rewrite Hmu. cbn. done.
  - rewrite run_Delete by done. cbn. rewrite Hmu. cbn. auto.
  - assert (clock_reads range_order now (Get k) tc <= 1)%nat as Hle.
    { cbn. rewrite Hmu. cbn.
      destruct (items tc !! k) as [theItem|]; cbn; [|auto].
      destruct (KeepRefreshing theItem); cbn; auto. }
    destruct (exec now (Get k) tc); cbn; by rewrite Nat.add_0_r.
  - rewrite run_KeyExists by done. cbn. rewrite Hmu. cbn.
    destruct (items tc !! k); cbn; auto.
  - rewrite run_RemoveExpired, RemoveExpired_reads_clock_once by done.
    cbn. done.
Qed.

(** ** Calls through [call_prog] *)

Lemma run_call_prog now c tc :
  exec now (call_prog c) tc =
  match c with
  | call_Put key content duration =>
      match exec now (Put key content duration) tc with
      | Returned _ tc' => Returned res_none tc'
      | Blocked => Blocked
      | Fatal msg => Fatal msg
      end
  | call_PutRefreshing key content duration =>
      match exec now (PutRefreshing key content duration) tc with
      | Returned _ tc' => Returned res_none tc'
      | Blocked => Blocked
      | Fatal msg => Fatal msg
      end
  | call_Delete key =>
      match exec now (Delete key) tc with
      | Returned _ tc' => Returned res_none tc'
      | Blocked => Blocked
      | Fatal msg => Fatal msg
      end
  | call_Get key =>
      match exec now (Get key) tc with
      | Returned r tc' => Returned (res_value r.1 r.2) tc'
      | Blocked => Blocked
      | Fatal msg => Fatal msg
      end
  | call_KeyExists key =>
      match exec now (KeyExists key) tc with
      | Returned b tc' => Returned (res_bool b) tc'
      | Blocked => Blocked
      | Fatal msg => Fatal msg
      end
  | call_RemoveExpired =>
      match exec now RemoveExpired tc with
      | Returned _ tc' => Returned res_none tc'
      | Blocked => Blocked
      | Fatal msg => Fatal msg
      end
  end.
Proof.
  destruct c; unfold call_prog, mbind, prog_bind; rewrite run_bind;
    match goal with |- context [exec now ?p tc] => destruct (exec now p tc) end;
    reflexivity.
Qed.

(** An entry agrees with an earlier one on everything but [ExpiresAt]. *)
Lemma same_but_ExpiresAt_refl (m : gmap string (cacheItem V)) key it' :
  m !! key = Some it' ->
  exists it, m !! key = Some it /\ Content it' = Content it /\
    KeepRefreshing it' = KeepRefreshing it /\ RefreshBy it' = RefreshBy it.
Proof. intros H. by exists it'. Qed.

Lemma Get_returns now k tc :
  mu tc = false ->
  exists r tc',
    exec now (Get k) tc = Returned r tc' /\ mu tc' = false /\
    forall key it', items tc' !! key = Some it' ->
      exists it, items tc !! key = Some it /\ Content it' = Content it /\
        KeepRefreshing it' = KeepRefreshing it /\ RefreshBy it' = RefreshBy it.
Proof.
  intros Hmu.
  destruct (items tc !! k) as [theItem|] eqn:Hlk.
  - destruct (KeepRefreshing theItem) eqn:Hr.
    + rewrite (run_Get_refreshing now k tc theItem) by done.
      eexists _, _. split; [done|]. split; [done|]. simpl.
      intros key it' Hk.
      destruct (decide (k = key)) as [->|Hne].
      * rewrite lookup_insert_eq in Hk. injection Hk as <-.
        exists theItem. by rewrite Hlk.
      * rewrite lookup_insert_ne in Hk by done. by exists it'.
    + rewrite (run_Get_fixed now k tc theItem) by done.
      eexists _, _. split; [done|]. split; [done|].
      intros key. apply same_but_ExpiresAt_refl.
  - rewrite run_Get_absent by done.
    eexists _, _. split; [done|]. split; [done|].
    intros key. apply same_but_ExpiresAt_refl.
Qed.

Lemma leaves_entry_step now key c tc :
  mu tc = false -> leaves_entry key c = true ->
  exists r tc',
    exec now (call_prog c) tc = Returned r tc' /\ mu tc' = false /\
    forall it', items tc' !! key = Some it' ->
      exists it, items tc !! key = Some it /\ Content it' = Content it /\
        KeepRefreshing it' = KeepRefreshing it /\ RefreshBy it' = RefreshBy it.
Proof.
  intros Hmu Hc. rewrite run_call_prog.
  destruct c as [k v d|k v d|k|k|k|]; simpl in Hc; try done.
  - apply bool_decide_eq_true in Hc.
    rewrite run_Delete by done.
    eexists _, _. split; [done|]. split; [done|]. simpl.
    intros it'. rewrite lookup_delete_ne by done.
    apply same_but_ExpiresAt_refl.
  - destruct (Get_returns now k tc Hmu) as (r & tc' & -> & Hmu' & Hkeep).
    eexists _, _. split; [done|]. split; [done|]. apply Hkeep.
  - rewrite run_KeyExists by done.
    eexists _, _. split; [done|]. split; [done|].
    apply same_but_ExpiresAt_refl.
  - rewrite run_RemoveExpired by done.
    eexists _, _. split; [done|]. split; [done|]. simpl.
    intros it'. rewrite RemoveExpired_lookup.
    destruct (items tc !! key) as [it|]; [|done].
    destruct (Before (ExpiresAt it) now); [done|].
    intros [= <-]. by exists it.
Qed.

(** ** The specification, sequential part *)

(** C1. [Get] of a key that holds a refreshing entry returns the stored
    content with no error and, before it returns, stores the entry back
    with [ExpiresAt] set to [now + RefreshBy]; the other fields of the
    entry, the entries of all other keys, the interval and the mutex are
    as before the call. *)
Theorem Get_refreshing_extends_lease now key tc theItem :
  mu tc = false ->
  items tc !! key = Some theItem ->
  KeepRefreshing theItem = true ->
  exists tc' it',
    exec now (Get key) tc = Returned (Content theItem, no_error) tc' /\
    items tc' !! key = Some it' /\
    ExpiresAt it' = now + RefreshBy theItem /\
    Content it' = Content theItem /\
    KeepRefreshing it' = KeepRefreshing theItem /\
    RefreshBy it' = RefreshBy theItem /\
    (forall k, k ≠ key -> items tc' !! k = items tc !! k) /\
    interval tc' = interval tc /\ mu tc' = mu tc.
Proof.
  intros Hmu Hk Hr.
  rewrite (run_Get_refreshing now key tc theItem) by done.
  eexists _, _. split; [done|]. simpl.
  split; [apply lookup_insert_eq|]. repeat split; try done.
  intros k Hne. by rewrite lookup_insert_ne.
Qed.

(** C2. [Put(k, v, ttl)] followed at once by [Get(k)] returns [v] with
    no error, whatever the key, the value, the duration and the two
    clock readings. *)
Theorem Put_then_Get now1 now2 k v ttl tc :
  mu tc = false ->
  exists tc',
    run_calls range_order [(now1, call_Put k v ttl); (now2, call_Get k)] tc =
    Returned [res_none; res_value v no_error] tc'.
Proof.
  intros Hmu. cbn [run_calls]. rewrite run_call_prog, run_Put by done.
  cbv beta iota. rewrite run_call_prog.
  rewrite (run_Get_fixed now2 k _ (mkItem v (Add now1 ttl) false 0)); try done.
  - by eexists.
  - simpl. apply lookup_insert_eq.
Qed.

(** C3. [RemoveExpired] reads the clock once and removes exactly the
    entries whose [ExpiresAt] is strictly before that reading: such an
    entry is gone, every other entry is still there, unchanged, and no
    entry appears; this holds in whatever order the range visits the
    keys. *)
Theorem RemoveExpired_removes_exactly_the_expired now tc :
  mu tc = false ->
  clock_reads range_order now RemoveExpired tc = 1%nat /\
  exists tc',
    exec now RemoveExpired tc = Returned tt tc' /\
    (forall key it, items tc !! key = Some it -> ExpiresAt it < now ->
       items tc' !! key = None) /\
    (forall key it, items tc !! key = Some it -> now <= ExpiresAt it ->
       items tc' !! key = Some it) /\
    (forall key, items tc !! key = None -> items tc' !! key = None) /\
    interval tc' = interval tc /\ mu tc' = mu tc.
Proof.
  intros Hmu. split; [by apply RemoveExpired_reads_clock_once|].
  rewrite run_RemoveExpired by done.
  eexists. split; [done|]. simpl.
  repeat split; try done.
  - intros key it Hk Hlt. rewrite RemoveExpired_lookup, Hk.
    unfold Before. by rewrite (proj2 (Z.ltb_lt _ _) Hlt).
  - intros key it Hk Hle. rewrite RemoveExpired_lookup, Hk.
    unfold Before. by rewrite (proj2 (Z.ltb_ge _ _) Hle).
  - intros key Hk. by rewrite RemoveExpired_lookup, Hk.
Qed.

(** C5, as the code has it.  Neither [Get] nor [KeyExists] looks at
    [ExpiresAt]: for a key that is in the table, whatever its
    [ExpiresAt], [Get] returns the content with no error and [KeyExists]
    returns [true].  For a refreshing entry the [Get] sets [ExpiresAt] to
    [now + RefreshBy], which is after [now] exactly when [RefreshBy] is
    positive. *)
Theorem reads_ignore_ExpiresAt now key tc theItem :
  mu tc = false ->
  items tc !! key = Some theItem ->
  exists tc',
    exec now (Get key) tc = Returned (Content theItem, no_error) tc' /\
    exec now (KeyExists key) tc = Returned true tc /\
    (KeepRefreshing theItem = true ->
     exists it',
       items tc' !! key = Some it' /\
       ExpiresAt it' = Add now (RefreshBy theItem) /\
       (now < ExpiresAt it' <-> 0 < RefreshBy theItem)).
Proof.
  intros Hmu Hk.
  rewrite run_KeyExists, Hk by done.
  destruct (KeepRefreshing theItem) eqn:Hr.
  - rewrite (run_Get_refreshing now key tc theItem) by done.
    eexists. split; [done|]. split; [done|]. intros _.
    eexists. simpl. split; [apply lookup_insert_eq|]. simpl.
    split; [done|]. unfold Add. lia.
  - rewrite (run_Get_fixed now key tc theItem) by done.
    eexists. split; [done|]. split; [done|]. done.
Qed.

Lemma leaves_entry_calls key cs tc :
  mu tc = false ->
  Forall (fun c => leaves_entry key c.2 = true) cs ->
  exists rs tc',
    run_calls range_order cs tc = Returned rs tc' /\ mu tc' = false /\
    forall it', items tc' !! key = Some it' ->
      exists it, items tc !! key = Some it /\ Content it' = Content it /\
        KeepRefreshing it' = KeepRefreshing it /\ RefreshBy it' = RefreshBy it.
Proof.
  intros Hmu Hcs. revert tc Hmu.
  induction Hcs as [|[now c] rest Hc _ IH]; intros tc Hmu.
  - exists [], tc. split; [done|]. split; [done|].
    apply same_but_ExpiresAt_refl.
  - cbn [run_calls].
    destruct (leaves_entry_step now key c tc Hmu Hc) as (r & tc1 & -> & Hmu1 & H1).
    destruct (IH tc1 Hmu1) as (rs & tc2 & -> & Hmu2 & H2).
    eexists _, _. split; [done|]. split; [done|].
    intros it2 Hit2.
    destruct (H2 it2 Hit2) as (it1 & Hit1 & Hc1 & Hr1 & Hb1).
    destruct (H1 it1 Hit1) as (it & Hit & Hc0 & Hr0 & Hb0).
    exists it. repeat split; congruence.
Qed.

(** C6. After [PutRefreshing(key, v, ttl)], whatever sequence of [Get],
    [KeyExists], [Delete] of other keys and [RemoveExpired] follows, and
    at whatever clock readings, every call returns and, as long as [key]
    is in the table, its entry still has content [v], is still
    refreshing, and still has [RefreshBy = ttl]: only [ExpiresAt]
    changes. *)
Theorem refreshing_entry_keeps_RefreshBy now key v ttl cs tc :
  mu tc = false ->
  Forall (fun c => leaves_entry key c.2 = true) cs ->
  exists tc1 rs tc2,
    exec now (PutRefreshing key v ttl) tc = Returned tt tc1 /\
    run_calls range_order cs tc1 = Returned rs tc2 /\
    forall it, items tc2 !! key = Some it ->
      Content it = v /\ KeepRefreshing it = true /\ RefreshBy it = ttl.
Proof.
  intros Hmu Hcs. rewrite run_PutRefreshing by done.
  set (tc1 := set_items _ tc).
  destruct (leaves_entry_calls key cs tc1) as (rs & tc2 & Hrun & _ & Hkeep);
    [done | exact Hcs |].
  exists tc1, rs, tc2. split; [done|]. split; [exact Hrun|].
  intros it Hit. destruct (Hkeep it Hit) as (it0 & Hit0 & Hc & Hr & Hb).
  subst tc1. simpl in Hit0. rewrite lookup_insert_eq in Hit0.
  injection Hit0 as <-. done.
Qed.

(** C7. [Get] of a key that holds an entry that is not refreshing
    returns the stored content with no error and leaves the receiver
    exactly as it was: the entry, every other entry, the interval and the
    mutex; and so does any number of such calls in a row. *)
Theorem Get_fixed_leaves_table now key tc theItem nows :
  mu tc = false ->
  items tc !! key = Some theItem ->
  KeepRefreshing theItem = false ->
  exec now (Get key) tc = Returned (Content theItem, no_error) tc /\
  run_calls range_order ((fun t => (t, call_Get key)) <$> nows) tc =
  Returned ((fun _ => res_value (Content theItem) no_error) <$> nows) tc.
Proof.
  intros Hmu Hk Hr. split; [by apply run_Get_fixed|].
  induction nows as [|t nows IH]; [done|].
  cbn [fmap list_fmap run_calls].
  rewrite run_call_prog, (run_Get_fixed t key tc theItem) by done.
  cbv beta iota.
  change (list_fmap _ _ ?f nows) with (f <$> nows).
  by rewrite IH.
Qed.

(** C8. Called with the mutex free, every method returns.  [Get]
    returns the not-found error exactly when the key is not in the table
    and no error exactly when it is; [Put], [PutRefreshing], [Delete],
    [KeyExists] and [RemoveExpired] return for every key, content and
    duration, and have no error to report. *)
Theorem only_Get_reports_an_error now key content duration tc :
  mu tc = false ->
  (exists r tc', exec now (Get key) tc = Returned r tc' /\
     (r.2 = item_not_found <-> items tc !! key = None) /\
     (r.2 = no_error <-> is_Some (items tc !! key))) /\
  (exists tc', exec now (Put key content duration) tc = Returned tt tc') /\
  (exists tc', exec now (PutRefreshing key content duration) tc = Returned tt tc') /\
  (exists tc', exec now (Delete key) tc = Returned tt tc') /\
  (exists b tc', exec now (KeyExists key) tc = Returned b tc') /\
  (exists tc', exec now RemoveExpired tc = Returned tt tc').
Proof.
  intros Hmu. split.
  - destruct (items tc !! key) as [theItem|] eqn:Hk.
    + destruct (KeepRefreshing theItem) eqn:Hr.
      * rewrite (run_Get_refreshing now key tc theItem) by done.
        eexists _, _. split; [done|]. simpl. split; split; try done.
      * rewrite (run_Get_fixed now key tc theItem) by done.
        eexists _, _. split; [done|]. simpl. split; split; try done.
    + rewrite run_Get_absent by done.
      eexists _, _. split; [done|]. simpl. split; split; try done.
  - rewrite run_Put, run_PutRefreshing, run_Delete, run_KeyExists,
      run_RemoveExpired by done.
    repeat (split; [eauto|]). eauto.
Qed.

(** C9. [Delete] returns with the entry of [key] gone and every other
    entry as it was; when [key] was not in the table nothing changes; a
    second [Delete] of the same key right after the first changes
    nothing more. *)
Theorem Delete_idempotent now1 now2 key tc :
  mu tc = false ->
  exists tc1,
    exec now1 (Delete key) tc = Returned tt tc1 /\
    items tc1 !! key = None /\
    (forall k, k ≠ key -> items tc1 !! k = items tc !! k) /\
    (items tc !! key = None -> tc1 = tc) /\
    exec now2 (Delete key) tc1 = Returned tt tc1.
Proof.
  intros Hmu. rewrite run_Delete by done. eexists. split; [done|].
  cbn [items set_items].
  split; [apply lookup_delete_eq|].
  split; [intros k Hne; by rewrite lookup_delete_ne|].
  split.
  - intros Hk. rewrite delete_id by done. apply set_items_id.
  - rewrite run_Delete by done. simpl. rewrite delete_delete_eq.
    by destruct tc.
Qed.

(** C10. [KeyExists] tells whether the key is in the table and leaves
    the receiver exactly as it was, the entry of a refreshing key
    included. *)
Theorem KeyExists_leaves_table now key tc :
  mu tc = false ->
  exec now (KeyExists key) tc =
  Returned (bool_decide (is_Some (items tc !! key))) tc.
Proof. apply run_KeyExists. Qed.

End Sequential.

Section Concurrent.

Context {V : Type}.
Variable range_order : gmap string (cacheItem V) -> list string.

(** ** The two readings agree

    A call that runs alone does, primitive by primitive, what [run] says. *)

Lemma step1_run {A : Type} now (p p' : prog V A) tc tc' :
  step1 range_order now p tc = Some (p', tc') ->
  run range_order now p tc = run range_order now p' tc'.
Proof.
  destruct p; simpl; try (intros [= <- <-]; reflexivity); try done.
  - destruct (mu tc); [done|]. by intros [= <- <-].
  - destruct (mu tc); [|done]. by intros [= <- <-].
Qed.

(** ** Every method brackets its accesses to the map *)

Lemma bracketed_bind {A B : Type} h1 h2 h3 (p : prog V A) (f : A -> prog V B) :
  bracketed h1 h2 p -> (forall a, bracketed h2 h3 (f a)) ->
  bracketed h1 h3 (bind p f).
Proof.
  intros Hp Hf. induction Hp; simpl; try (constructor; auto); auto.
Qed.

Ltac bracket := repeat (cbn; constructor; intros).

Lemma Put_bracketed key content duration :
  bracketed false false (Put (V:=V) key content duration).
Proof. bracket. Qed.

Lemma PutRefreshing_bracketed key content duration :
  bracketed false false (PutRefreshing (V:=V) key content duration).
Proof. bracket. Qed.

Lemma Delete_bracketed key : bracketed false false (Delete (V:=V) key).
Proof. bracket. Qed.

Lemma Get_bracketed key : bracketed false false (Get (V:=V) key).
Proof.
  cbn. constructor. constructor. intros [theItem|]; [|bracket].
  destruct (KeepRefreshing theItem); bracket.
Qed.

Lemma KeyExists_bracketed key : bracketed false false (KeyExists (V:=V) key).
Proof. cbn. constructor. constructor. intros [?|]; bracket. Qed.

Lemma range_from_bracketed keys (body : string -> cacheItem V -> prog V unit) :
  (forall key curItem, bracketed true true (body key curItem)) ->
  bracketed true true (range_from keys body).
Proof.
  intros Hbody. induction keys as [|key rest IH]; [constructor|].
  cbn. constructor. intros [curItem|]; [|exact IH].
  apply bracketed_bind with true; auto.
Qed.

Lemma RemoveExpired_bracketed : bracketed false false (RemoveExpired (V:=V)).
Proof.
  cbn. constructor. constructor. intros timeNow. constructor. intros keys.
  apply bracketed_bind with true; [|bracket].
  apply range_from_bracketed. intros key curItem.
  destruct (Before _ _); bracket.
Qed.

Lemma call_prog_bracketed (c : call V) : bracketed false false (call_prog c).
Proof.
  destruct c as [k v d|k v d|k|k|k|]; unfold call_prog, mbind, prog_bind.
  - apply (bracketed_bind false false false (Put k v d));
      [apply Put_bracketed | constructor].
  - apply (bracketed_bind false false false (PutRefreshing k v d));
      [apply PutRefreshing_bracketed | constructor].
  - apply (bracketed_bind false false false (Delete k));
      [apply Delete_bracketed | constructor].
  - apply (bracketed_bind false false false (Get k));
      [apply Get_bracketed | constructor].
  - apply (bracketed_bind false false false (KeyExists k));
      [apply KeyExists_bracketed | constructor].
  - apply (bracketed_bind false false false RemoveExpired);
      [apply RemoveExpired_bracketed | constructor].
Qed.

Lemma calls_prog_bracketed (cs : list (call V)) :
  bracketed false false (calls_prog cs).
Proof.
  induction cs as [|c rest IH]; [constructor|].
  apply (bracketed_bind false false false (call_prog c));
    [apply call_prog_bracketed | auto].
Qed.

Lemma startInterval_bracketed :
  bracketed false false (startInterval_body (V:=V);; Ret (res_none (V:=V))).
Proof.
  apply (bracketed_bind false false false startInterval_body);
    [|constructor].
  unfold startInterval_body, mbind, prog_bind. simpl bind.
  constructor. intros d. constructor. apply RemoveExpired_bracketed.
Qed.

(** ** One step of one goroutine *)

Lemma step1_bracketed {A : Type} now (p p' : prog V A) tc tc' held :
  step1 range_order now p tc = Some (p', tc') ->
  bracketed held false p ->
  bracketed (enters p held) false p'.
Proof.
  intros Hs Hb. destruct p; simpl in *; inversion Hb; subst; simplify_eq; auto.
  - destruct (mu tc); simplify_eq. done.
  - destruct (mu tc); simplify_eq. done.
Qed.

Lemma step1_mu {A : Type} now (p p' : prog V A) tc tc' :
  step1 range_order now p tc = Some (p', tc') ->
  interval tc' = interval tc /\
  mu tc' = match p with
           | Lock _ => true
           | Unlock _ => false
           | _ => mu tc
           end.
Proof.
  destruct p; simpl; try (intros [= <- <-]; done); try done.
  - destruct (mu tc); [done|]. by intros [= <- <-].
  - destruct (mu tc); [|done]. by intros [= <- <-].
Qed.

Lemma deref_Some h p (tc : TimedCache V) :
  deref h p = Some tc ->
  exists v, vars h !! p = Some v /\ v_mu v = mu tc /\
    tables h !! v_items v = Some (items tc).
Proof.
  unfold deref. destruct (vars h !! p) as [v|]; [|done].
  destruct (tables h !! v_items v) as [m|] eqn:Hm; [|done].
  intros [= <-]. exists v. simpl. by rewrite Hm.
Qed.

Lemma vars_commit h p v (tc : TimedCache V) :
  vars h !! p = Some v ->
  vars (commit h p tc) =
  <[p := mkValue (v_items v) (interval tc) (mu tc)]> (vars h).
Proof. unfold commit. by intros ->. Qed.

Lemma gstep_inv now i h gs (c' : config V) :
  gstep range_order now i (h, gs) = Some c' ->
  exists g, gs !! i = Some g /\
    ((exists a body, code g = Ret a /\ loop g = Some body /\
        c' = (h, <[i := mkGo (recv g) body (loop g) (critical g)]> gs)) \/
     (exists tc p' tc',
        deref h (recv g) = Some tc /\
        step1 range_order now (code g) tc = Some (p', tc') /\
        c' = (commit h (recv g) tc',
              <[i := mkGo (recv g) p' (loop g) (enters (code g) (critical g))]> gs))).
Proof.
  unfold gstep. destruct (gs !! i) as [g|]; [|done].
  intros Hs. exists g. split; [done|].
  destruct (code g) eqn:Hc; destruct (loop g) eqn:Hl;
    try (left; simplify_eq; eauto 10; fail);
    right; destruct (deref h (recv g)) as [tc|]; try done;
    match type of Hs with
    | context [step1 _ _ ?p tc] =>
        destruct (step1 range_order now p tc) as [[p' tc']|] eqn:Hs1; [|done]
    end; simplify_eq; eauto 10.
Qed.

(** What one primitive of bracketed code does to the mutex, when the
    goroutine that is inside its critical section finds it locked. *)
Lemma step1_critical {A : Type} now (p p' : prog V A) tc tc' held :
  step1 range_order now p tc = Some (p', tc') ->
  bracketed held false p ->
  (held = true -> mu tc = true) ->
  (enters p held = true -> mu tc' = true) /\
  (mu tc = true -> mu tc' = true \/ held = true) /\
  (mu tc = true -> enters p held = true -> held = true).
Proof.
  intros Hs Hb Hheld.
  destruct (step1_mu _ _ _ _ _ Hs) as [_ Hmu].
  destruct p; simpl in Hs, Hmu |- *; inversion Hb; subst;
    rewrite Hmu; clear Hmu;
    try (destruct (mu tc) eqn:Hm; simplify_eq);
    repeat split; intros; auto; congruence.
Qed.

(** ** Mutual exclusion among the callers of one pointer *)

Lemma gstep_exclusive now i (c c' : config V) :
  well_locked c -> exclusive c ->
  gstep range_order now i c = Some c' ->
  well_locked c' /\ exclusive c'.
Proof.
  destruct c as [h gs]. intros Hwl Hex Hstep.
  apply gstep_inv in Hstep as (g & Hg & Hcase).
  destruct (Hwl i g Hg) as (Hbr & Hloop & Hcrit).
  destruct Hcase as [(a & body & Hcode & Hl & ->)|(tc & p' & tc' & Hd & Hs & ->)].
  - (* the loop starts over *)
    rewrite Hcode in Hbr.
    assert (Hheld : critical g = false) by (inversion Hbr; congruence).
    split.
    + intros j gj Hj. simpl in Hj.
      apply list_lookup_insert_Some in Hj as [(<- & <- & _)|(Hne & Hj)].
      * simpl. rewrite Hheld. split; [by apply Hloop|]. split; [done|done].
      * apply (Hwl j gj Hj).
    + intros j1 j2 g1 g2 H1 H2 Hc1 Hc2 Hr. simpl in H1, H2.
      apply list_lookup_insert_Some in H1 as [(<- & <- & _)|(Hne1 & H1)];
        [simpl in Hc1; congruence|].
      apply list_lookup_insert_Some in H2 as [(<- & <- & _)|(Hne2 & H2)];
        [simpl in Hc2; congruence|].
      by apply (Hex j1 j2 g1 g2).
  - (* a primitive *)
    destruct (deref_Some _ _ _ Hd) as (v & Hv & Hvmu & _).
    assert (Hheld : critical g = true -> mu tc = true).
    { intros Hc. destruct (Hcrit Hc) as (v' & Hv' & Hmu'). simpl in Hv'. congruence. }
    destruct (step1_critical _ _ _ _ _ _ Hs Hbr Hheld) as (Hin & Hother & Hwas).
    assert (Hlocked : forall j gj, j ≠ i -> gs !! j = Some gj ->
              critical gj = true -> recv gj = recv g -> mu tc = true).
    { intros j gj Hne Hj Hc Hr.
      destruct (Hwl j gj Hj) as (_ & _ & Hcritj).
      destruct (Hcritj Hc) as (v' & Hv' & Hmu'). simpl in Hv'. congruence. }
    split.
    + intros j gj Hj. simpl in Hj. simpl.
      rewrite (vars_commit _ _ v) by done.
      apply list_lookup_insert_Some in Hj as [(<- & <- & _)|(Hne & Hj)].
      * simpl. split; [by eapply step1_bracketed|]. split; [done|].
        intros Hc. rewrite lookup_insert_eq. eexists. split; [done|].
        simpl. by apply Hin.
      * destruct (Hwl j gj Hj) as (Hbrj & Hloopj & Hcritj).
        split; [done|]. split; [done|]. intros Hc.
        destruct (decide (recv gj = recv g)) as [Hr|Hr].
        -- rewrite Hr, lookup_insert_eq. eexists. split; [done|]. simpl.
           assert (Hmu : mu tc = true) by (by eapply Hlocked).
           destruct (Hother Hmu) as [?|Hci]; [done|].
           exfalso. apply Hne. by apply (Hex i j g gj).
        -- rewrite lookup_insert_ne by done. by apply Hcritj.
    + intros j1 j2 g1 g2 H1 H2 Hc1 Hc2 Hr. simpl in H1, H2.
      apply list_lookup_insert_Some in H1 as [(<- & <- & _)|(Hne1 & H1)];
        apply list_lookup_insert_Some in H2 as [(<- & <- & _)|(Hne2 & H2)];
        simpl in *; try done.
      * assert (Hmu : mu tc = true) by (by eapply (Hlocked j2 g2)).
        by apply (Hex i j2 g g2); auto.
      * assert (Hmu : mu tc = true) by (by eapply (Hlocked j1 g1)).
        by apply (Hex j1 i g1 g); auto.
      * by apply (Hex j1 j2 g1 g2).
Qed.

Lemma gsteps_exclusive sched (c c' : config V) :
  well_locked c -> exclusive c ->
  gsteps range_order sched c = Some c' ->
  well_locked c' /\ exclusive c'.
Proof.
  revert c. induction sched as [|[i now] rest IH]; intros c Hwl Hex; simpl.
  - by intros [= <-].
  - destruct (gstep range_order now i c) as [c1|] eqn:Hs; [|done].
    destruct (gstep_exclusive _ _ _ _ Hwl Hex Hs) as [Hwl1 Hex1].
    by apply IH.
Qed.

(** Goroutines that have not started yet and run bracketed code. *)
Lemma idle_exclusive (c : config V) :
  (forall i g, c.2 !! i = Some g ->
     critical g = false /\ bracketed false false (code g) /\
     forall body, loop g = Some body -> bracketed false false body) ->
  well_locked c /\ exclusive c.
Proof.
  intros Hidle. split.
  - intros i g Hg. destruct (Hidle i g Hg) as (Hc & Hb & Hl).
    rewrite Hc. split; [done|]. split; [done|]. done.
  - intros i j gi gj Hi Hj Hci _ _.
    destruct (Hidle i gi Hi) as (Hc & _). congruence.
Qed.

(** Callers of methods through one and the same pointer, and a sweep
    started on that very pointer, exclude each other: whatever the
    schedule, no two of them are inside their critical sections
    together. *)
Lemma one_pointer_excludes h tc (callers : list (list (call V))) sched c' :
  gsteps range_order sched
    (h, startInterval tc ::
        ((fun cs => mkGo tc (calls_prog cs) None false) <$> callers)) = Some c' ->
  forall i j gi gj,
    c'.2 !! i = Some gi -> c'.2 !! j = Some gj ->
    critical gi = true -> critical gj = true -> i = j.
Proof.
  intros Hrun.
  assert (Hrecv : forall sched c c',
            gsteps range_order sched c = Some c' ->
            Forall (fun g => recv g = tc) c.2 ->
            Forall (fun g => recv g = tc) c'.2).
  { clear. induction sched as [|[i now] rest IH]; intros c c' Hs Hall; simpl in Hs.
    - by injection Hs as <-.
    - destruct (gstep range_order now i c) as [c1|] eqn:H1; [|done].
      apply (IH c1 c' Hs). destruct c as [h gs].
      apply gstep_inv in H1 as (g & Hg & [(a & body & _ & _ & ->)|(tc0 & p' & tc' & _ & _ & ->)]);
        simpl in *; apply Forall_insert; try done;
        apply (Forall_lookup_1 _ _ _ _ Hall Hg). }
  match type of Hrun with gsteps _ _ ?c = _ => set (c0 := c) in * end.
  assert (Hinit : well_locked c0 /\ exclusive c0).
  { apply idle_exclusive. intros [|i] g; simpl.
    - intros [= <-]. simpl. split; [done|].
      split; [apply startInterval_bracketed|].
      intros body [= <-]. apply startInterval_bracketed.
    - rewrite list_lookup_fmap. destruct (callers !! i) as [cs|]; [|done].
      intros [= <-]. simpl. split; [done|].
      split; [apply calls_prog_bracketed | done]. }
  destruct Hinit as [Hwl Hex].
  destruct (gsteps_exclusive _ _ _ Hwl Hex Hrun) as [_ Hex'].
  assert (Hall : Forall (fun g => recv g = tc) c'.2).
  { apply (Hrecv sched c0 c' Hrun). subst c0. simpl. constructor; [done|].
    apply Forall_fmap, Forall_true. done. }
  intros i j gi gj Hi Hj Hci Hcj.
  apply (Hex' i j gi gj Hi Hj Hci Hcj).
  rewrite (Forall_lookup_1 _ _ _ _ Hall Hi).
  by rewrite (Forall_lookup_1 _ _ _ _ Hall Hj).
Qed.

End Concurrent.

(** * The README session: the sweep started by [New] *)

Lemma keys_in_order_perm {V : Type} (m : gmap string (cacheItem V)) :
  keys_in_order m ≡ₚ (map_to_list m).*1.
Proof. reflexivity. Qed.

(** Were the three calls of the session atomic, the entry stored by the
    second [Put] would be in the table at the end, wherever the sweep
    falls among them. *)
Lemma README_session_serial :
  let put1 : Time * call string := (100, call_Put "k" (Some "v1"%string) (- Nanosecond)) in
  let put2 : Time * call string := (300, call_Put "k" (Some "v2"%string) Hour) in
  let fresh := mkCache ∅ Minute false in
  let v2 := Some (mkItem (Some "v2"%string) (Add 300 Hour) false 0) in
  forall cs,
    cs ∈ [[(50, call_RemoveExpired); put1; put2];
          [put1; (200, call_RemoveExpired); put2];
          [put1; put2; (350, call_RemoveExpired)]] ->
    exists rs tc,
      run_calls keys_in_order cs fresh = Returned rs tc /\
      items tc !! "k" = v2.
Proof.
  intros put1 put2 fresh v2 cs Hcs.
  repeat (apply elem_of_cons in Hcs as [->|Hcs]);
    [| | |by apply elem_of_nil in Hcs];
    eexists _, _; (split; [vm_compute; reflexivity|]); vm_compute; reflexivity.
Qed.

(** C4, on the code.  [New] returns the struct by value (here before the
    sweep has taken a step), so the caller's
    [sessionStore] carries a copy of the mutex while the sweep goroutine
    keeps locking the one inside [newCache]: the two receivers are
    different variables that refer to the same table.  Hence the caller's
    [Lock] succeeds while the sweep is inside its critical section, and
    in the schedule below the sweep, which has read the expired entry of
    "k", deletes the entry that the second [Put] has stored meanwhile:
    the session ends with "k" absent. *)
Theorem New_sweep_locks_another_mutex :
  exists sessionStore c0,
  README_session = Some (sessionStore, c0) /\
  (exists sweep caller vs vc,
     c0.2 !! 0%nat = Some sweep /\ c0.2 !! 1%nat = Some caller /\
     recv caller = sessionStore /\ recv sweep ≠ recv caller /\
     vars c0.1 !! recv sweep = Some vs /\
     vars c0.1 !! recv caller = Some vc /\
     v_items vs = v_items vc) /\
  exists c1 c2 tc,
    gsteps keys_in_order schedule_into_overlap c0 = Some c1 /\
    overlap c1 0 1 /\
    gsteps keys_in_order schedule_to_the_end c1 = Some c2 /\
    deref c2.1 sessionStore = Some tc /\
    items tc !! "k" = None.
Proof.
  eexists _, _. split; [vm_compute; reflexivity|]. split.
  - eexists _, _, _, _. repeat split; try (vm_compute; reflexivity).
    vm_compute. discriminate.
  - eexists _, _, _. split; [vm_compute; reflexivity|].
    split.
    { eexists _, _, _, _. repeat split; vm_compute; reflexivity. }
    split; [vm_compute; reflexivity|].
    split; vm_compute; reflexivity.
Qed.

(** * The theorems at work on [sample_cache] *)

Lemma Get_refreshing_extends_lease_witness :
  mu sample_cache = false /\
  items sample_cache !! "session" = Some session_item /\
  KeepRefreshing session_item = true /\
  exists tc' it',
    run keys_in_order 2000 (Get "session") sample_cache =
      Returned (Content session_item, no_error) tc' /\
    items tc' !! "session" = Some it' /\
    ExpiresAt it' = 1800000002000 /\
    Content it' = Content session_item /\
    KeepRefreshing it' = KeepRefreshing session_item /\
    RefreshBy it' = RefreshBy session_item /\
    (forall k, k ≠ "session" -> items tc' !! k = items sample_cache !! k) /\
    interval tc' = interval sample_cache /\ mu tc' = mu sample_cache.
Proof.
  split; [reflexivity|]. split; [reflexivity|]. split; [reflexivity|].
  apply (Get_refreshing_extends_lease keys_in_order 2000 "session"
           sample_cache session_item); reflexivity.
Defined.

Lemma Put_then_Get_witness :
  mu sample_cache = false /\
  exists tc',
    run_calls keys_in_order
      [(10, call_Put "k" (Some "v"%string) Hour); (10, call_Get "k")]
      sample_cache =
    Returned [res_none; res_value (Some "v"%string) no_error] tc'.
Proof.
  split; [reflexivity|].
  apply (Put_then_Get keys_in_order 10 10 "k" (Some "v"%string) Hour
           sample_cache); reflexivity.
Defined.

Lemma RemoveExpired_removes_exactly_the_expired_witness :
  (forall m : gmap string (cacheItem string),
     keys_in_order m ≡ₚ (map_to_list m).*1) /\
  mu sample_cache = false /\
  clock_reads keys_in_order 1000 RemoveExpired sample_cache = 1%nat /\
  exists tc',
    run keys_in_order 1000 RemoveExpired sample_cache = Returned tt tc' /\
    (forall key it, items sample_cache !! key = Some it ->
       ExpiresAt it < 1000 -> items tc' !! key = None) /\
    (forall key it, items sample_cache !! key = Some it ->
       1000 <= ExpiresAt it -> items tc' !! key = Some it) /\
    (forall key, items sample_cache !! key = None ->
       items tc' !! key = None) /\
    interval tc' = interval sample_cache /\ mu tc' = mu sample_cache.
Proof.
  split; [exact keys_in_order_perm|]. split; [reflexivity|].
  apply (RemoveExpired_removes_exactly_the_expired keys_in_order
           keys_in_order_perm 1000 sample_cache); reflexivity.
Defined.

Lemma reads_ignore_ExpiresAt_witness :
  mu sample_cache = false /\
  items sample_cache !! "session" = Some session_item /\
  exists tc',
    run keys_in_order 5000 (Get "session") sample_cache =
      Returned (Content session_item, no_error) tc' /\
    run keys_in_order 5000 (KeyExists "session") sample_cache =
      Returned true sample_cache /\
    (KeepRefreshing session_item = true ->
     exists it',
       items tc' !! "session" = Some it' /\
       ExpiresAt it' = Add 5000 (RefreshBy session_item) /\
       (5000 < ExpiresAt it' <-> 0 < RefreshBy session_item)).
Proof.
  split; [reflexivity|]. split; [reflexivity|].
  apply (reads_ignore_ExpiresAt keys_in_order 5000 "session" sample_cache
           session_item); reflexivity.
Defined.

Lemma refreshing_entry_keeps_RefreshBy_witness :
  let cs : list (Time * call string) :=
    [(20, call_Get "k"); (30, call_KeyExists "k"); (40, call_Delete "token");
     (50, call_RemoveExpired); (60, call_Get "session")] in
  (forall m : gmap string (cacheItem string),
     keys_in_order m ≡ₚ (map_to_list m).*1) /\
  mu sample_cache = false /\
  Forall (fun c => leaves_entry "k" c.2 = true) cs /\
  exists tc1 rs tc2,
    run keys_in_order 10 (PutRefreshing "k" (Some "v"%string) Hour)
      sample_cache = Returned tt tc1 /\
    run_calls keys_in_order cs tc1 = Returned rs tc2 /\
    forall it, items tc2 !! "k" = Some it ->
      Content it = Some "v"%string /\ KeepRefreshing it = true /\
      RefreshBy it = Hour.
Proof.
  intros cs.
  assert (Hcs : Forall (fun c : Time * call string =>
                          leaves_entry "k" c.2 = true) cs)
    by (repeat constructor).
  split; [exact keys_in_order_perm|]. split; [reflexivity|]. split; [exact Hcs|].
  apply (refreshing_entry_keeps_RefreshBy keys_in_order
           keys_in_order_perm 10 "k" (Some "v"%string) Hour cs
           sample_cache); [reflexivity | exact Hcs].
Defined.

Lemma Get_fixed_leaves_table_witness :
  mu sample_cache = false /\
  items sample_cache !! "token" = Some token_item /\
  KeepRefreshing token_item = false /\
  run keys_in_order 10 (Get "token") sample_cache =
    Returned (Content token_item, no_error) sample_cache /\
  run_calls keys_in_order
    ((fun t => (t, call_Get "token")) <$> [20; 30; 2000]) sample_cache =
  Returned ((fun _ => res_value (Content token_item) no_error) <$> [20; 30; 2000])
    sample_cache.
Proof.
  split; [reflexivity|]. split; [reflexivity|]. split; [reflexivity|].
  apply (Get_fixed_leaves_table keys_in_order 10 "token" sample_cache
           token_item [20; 30; 2000]); reflexivity.
Defined.

Lemma only_Get_reports_an_error_witness :
  mu sample_cache = false /\
  (exists r tc', run keys_in_order 10 (Get "absent") sample_cache = Returned r tc' /\
     (r.2 = item_not_found <-> items sample_cache !! "absent" = None) /\
     (r.2 = no_error <-> is_Some (items sample_cache !! "absent"))) /\
  (exists tc', run keys_in_order 10 (Put "absent" None (-5)) sample_cache =
     Returned tt tc') /\
  (exists tc', run keys_in_order 10 (PutRefreshing "absent" None (-5)) sample_cache =
     Returned tt tc') /\
  (exists tc', run keys_in_order 10 (Delete "absent") sample_cache =
     Returned tt tc') /\
  (exists b tc', run keys_in_order 10 (KeyExists "absent") sample_cache =
     Returned b tc') /\
  (exists tc', run keys_in_order 10 RemoveExpired sample_cache = Returned tt tc').
Proof.
  split; [reflexivity|].
  apply (only_Get_reports_an_error keys_in_order 10 "absent" None (-5)
           sample_cache); reflexivity.
Defined.

Lemma Delete_idempotent_witness :
  mu sample_cache = false /\
  exists tc1,
    run keys_in_order 10 (Delete "token") sample_cache = Returned tt tc1 /\
    items tc1 !! "token" = None /\
    (forall k, k ≠ "token" -> items tc1 !! k = items sample_cache !! k) /\
    (items sample_cache !! "token" = None -> tc1 = sample_cache) /\
    run keys_in_order 20 (Delete "token") tc1 = Returned tt tc1.
Proof.
  split; [reflexivity|].
  apply (Delete_idempotent keys_in_order 10 20 "token" sample_cache);
    reflexivity.
Defined.

Lemma KeyExists_leaves_table_witness :
  mu sample_cache = false /\
  run keys_in_order 5000 (KeyExists "session") sample_cache =
  Returned (bool_decide (is_Some (items sample_cache !! "session")))
    sample_cache.
Proof.
  split; [reflexivity|].
  apply (KeyExists_leaves_table keys_in_order 5000 "session" sample_cache);
    reflexivity.
Defined.

(** C5, as the claim has it, fails for a refreshing entry stored with a
    duration that is not positive: stored at time 100 with -1ns, the
    entry is due at 99; a [Get] at time 200 finds it, returns it, and
    sets [ExpiresAt] to 199, which is not after 200. *)
Lemma Get_refresh_not_into_the_future :
  exists tc theItem tc' it',
    run keys_in_order 100 (PutRefreshing "k" (Some "v"%string) (- Nanosecond))
      (mkCache ∅ Minute false) = Returned tt tc /\
    items tc !! "k" = Some theItem /\
    KeepRefreshing theItem = true /\
    ExpiresAt theItem < 200 /\
    run keys_in_order 200 (Get "k") tc = Returned (Some "v"%string, no_error) tc' /\
    items tc' !! "k" = Some it' /\
    ExpiresAt it' = 199 /\
    ~ (200 < ExpiresAt it').
Proof.
  eexists _, _, _, _.
  split; [vm_compute; reflexivity|].
  split; [vm_compute; reflexivity|].
  split; [reflexivity|].
  split; [reflexivity|].
  split; [vm_compute; reflexivity|].
  split; [vm_compute; reflexivity|].
  split; [reflexivity|].
  vm_compute. discriminate.
Qed.

(** * Further properties of the methods *)

Section Compositions.

Context {V : Type}.
Variable range_order : gmap string (cacheItem V) -> list string.

Hypothesis range_order_perm :
  forall m, range_order m ≡ₚ (map_to_list m).*1.

Local Abbreviation exec := (run range_order).

(** ** One call, one key *)

Lemma partial_alter_found (f : option (cacheItem V) -> option (cacheItem V))
    (m : gmap string (cacheItem V)) k :
  f (m !! k) = m !! k -> partial_alter f k m = m.
Proof.
  intros Hf. apply map_eq. intros j. rewrite lookup_partial_alter.
  case_decide; [by subst j|done].
Qed.

Lemma run_keyed_call now c k tc :
  call_key c = Some k -> mu tc = false ->
  exec now (call_prog c) tc =
  Returned (call_result c (items tc !! k))
    (set_items (partial_alter (call_update now c) k (items tc)) tc).
Proof.
  intros Hk Hmu. rewrite run_call_prog.
  destruct c as [k0 v d|k0 v d|k0|k0|k0|]; simpl in Hk; simplify_eq.
  - by rewrite run_Put.
  - by rewrite run_PutRefreshing.
  - by rewrite run_Delete.
  - destruct (items tc !! k) as [theItem|] eqn:Hlk.
    + destruct (KeepRefreshing theItem) eqn:Hr.
      * rewrite (run_Get_refreshing _ now k tc theItem) by done. simpl.
        do 2 f_equal. apply map_eq. intros j.
        rewrite lookup_partial_alter, lookup_insert.
        case_decide; [|done]. subst j. rewrite Hlk. simpl. by rewrite Hr.
      * rewrite (run_Get_fixed _ now k tc theItem) by done. simpl.
        rewrite partial_alter_found, set_items_id; [done|].
        rewrite Hlk. simpl. by rewrite Hr.
    + rewrite run_Get_absent by done. simpl.
      rewrite partial_alter_found, set_items_id; [done|]. by rewrite Hlk.
  - rewrite run_KeyExists by done. simpl.
    rewrite partial_alter_found, set_items_id by done.
    by destruct (items tc !! k).
Qed.

Lemma run_calls_app cs1 cs2 (tc : TimedCache V) :
  run_calls range_order (cs1 ++ cs2) tc =
  match run_calls range_order cs1 tc with
  | Returned rs1 tc1 =>
      match run_calls range_order cs2 tc1 with
      | Returned rs2 tc2 => Returned (rs1 ++ rs2) tc2
      | Blocked => Blocked
      | Fatal msg => Fatal msg
      end
  | Blocked => Blocked
  | Fatal msg => Fatal msg
  end.
Proof.
  revert tc. induction cs1 as [|[now c] rest IH]; intros tc.
  - simpl. by destruct (run_calls range_order cs2 tc).
  - cbn [app run_calls].
    destruct (exec now (call_prog c) tc) as [r tc1| |]; [|done|done].
    rewrite IH. destruct (run_calls range_order rest tc1) as [rs1 tc2| |]; [|done|done].
    by destruct (run_calls range_order cs2 tc2).
Qed.

(** X1. A call of a method about key [k] leaves the entry of every
    other key, the interval and the mutex as they were, and what it
    returns depends on the entry of [k] only. *)
Theorem keyed_call_frame now c k tc :
  call_key c = Some k -> mu tc = false ->
  exists tc',
    exec now (call_prog c) tc = Returned (call_result c (items tc !! k)) tc' /\
    (forall k', k' ≠ k -> items tc' !! k' = items tc !! k') /\
    interval tc' = interval tc /\ mu tc' = mu tc.
Proof.
  intros Hk Hmu. rewrite (run_keyed_call now c k) by done.
  eexists. split; [done|]. simpl. repeat split.
  intros k' Hne. rewrite lookup_partial_alter.
  case_decide; [congruence | done].
Qed.

(** X2. Two calls about different keys commute: made in either order,
    each at its own clock reading, they return the same results and
    leave the same receiver. *)
Theorem calls_on_distinct_keys_commute now1 now2 c1 c2 k1 k2 tc :
  call_key c1 = Some k1 -> call_key c2 = Some k2 -> k1 ≠ k2 ->
  mu tc = false ->
  exists r1 r2 tc',
    run_calls range_order [(now1, c1); (now2, c2)] tc = Returned [r1; r2] tc' /\
    run_calls range_order [(now2, c2); (now1, c1)] tc = Returned [r2; r1] tc'.
Proof.
  intros H1 H2 Hne Hmu. cbn [run_calls].
  rewrite (run_keyed_call now1 c1 k1), (run_keyed_call now2 c2 k2) by done.
  rewrite (run_keyed_call now2 c2 k2), (run_keyed_call now1 c1 k1) by done.
  cbn [items set_items].
  rewrite !lookup_partial_alter.
  rewrite (decide_False (P := k1 = k2)), (decide_False (P := k2 = k1)) by done.
  eexists _, _, _. split; [done|].
  by rewrite (partial_alter_partial_alter_ne _ _ _ k1 k2).
Qed.

(** ** Stores, deletes and reads of one key *)

(** X3. Whatever entry key [k] holds, refreshing or not, [Put] replaces
    it by one that is not refreshing: a [Get] at any later time returns
    the new content and leaves [ExpiresAt] at the deadline set by the
    [Put]. *)
Theorem Put_makes_entry_fixed now1 now2 k v ttl tc :
  mu tc = false ->
  exists tc1,
    exec now1 (Put k v ttl) tc = Returned tt tc1 /\
    items tc1 !! k = Some (mkItem v (now1 + ttl) false 0) /\
    exec now2 (Get k) tc1 = Returned (v, no_error) tc1.
Proof.
  intros Hmu. rewrite run_Put by done.
  set (tc1 := set_items _ tc). exists tc1. split; [done|].
  assert (Hk : items tc1 !! k = Some (mkItem v (Add now1 ttl) false 0))
    by apply lookup_insert_eq.
  split; [exact Hk|].
  by rewrite (run_Get_fixed _ now2 k tc1 _ Hmu Hk).
Qed.

(** X4. The last store wins: after two stores under one key, by [Put]
    or [PutRefreshing] in any combination, the receiver is what the
    second store alone would have left. *)
Theorem last_store_wins now1 now2 k (refreshing1 refreshing2 : bool)
    v1 v2 ttl1 ttl2 tc :
  mu tc = false ->
  let store (refreshing : bool) :=
    if refreshing then call_PutRefreshing (V:=V) k else call_Put k in
  exists tc2,
    run_calls range_order [(now1, store refreshing1 v1 ttl1);
                (now2, store refreshing2 v2 ttl2)] tc =
      Returned [res_none; res_none] tc2 /\
    run_calls range_order [(now2, store refreshing2 v2 ttl2)] tc =
      Returned [res_none] tc2.
Proof.
  intros Hmu store. cbn [run_calls].
  assert (Hkey : forall r v ttl, call_key (store r v ttl) = Some k)
    by (by intros [] ? ?).
  rewrite !(run_keyed_call _ _ k) by (done || apply Hkey).
  cbn [items set_items].
  rewrite partial_alter_partial_alter_eq.
  destruct refreshing1, refreshing2; simpl; eexists; (split; [done|]);
    by destruct tc.
Qed.

(** X5. After [Delete(k)], whatever [k] held, [Get(k)] returns nil with
    the not-found error and [KeyExists(k)] returns false. *)
Theorem Delete_then_reads now1 now2 now3 k tc :
  mu tc = false ->
  exists tc1,
    run_calls range_order [(now1, call_Delete k); (now2, call_Get k);
                (now3, call_KeyExists k)] tc =
    Returned [res_none; res_value None item_not_found; res_bool false] tc1 /\
    items tc1 = delete k (items tc).
Proof.
  intros Hmu. cbn [run_calls].
  rewrite run_call_prog, run_Delete by done. cbv beta iota.
  rewrite run_call_prog, run_Get_absent; [|done|apply lookup_delete_eq].
  cbv beta iota.
  rewrite run_call_prog, run_KeyExists by done.
  cbn [items set_items]. rewrite lookup_delete_eq.
  eexists. split; [done|done].
Qed.

(** X6. [KeyExists] and [Get] agree: on the same receiver, [KeyExists]
    returns true exactly when [Get] returns no error, and false exactly
    when [Get] returns nil with the not-found error. *)
Theorem KeyExists_agrees_with_Get now1 now2 k tc :
  mu tc = false ->
  exists b r tc',
    exec now1 (KeyExists k) tc = Returned b tc /\
    exec now2 (Get k) tc = Returned r tc' /\
    (b = true <-> r.2 = no_error) /\
    (b = false <-> r = (None, item_not_found)).
Proof.
  intros Hmu. rewrite run_KeyExists by done.
  destruct (items tc !! k) as [theItem|] eqn:Hk.
  - destruct (KeepRefreshing theItem) eqn:Hr.
    + rewrite (run_Get_refreshing _ now2 k tc theItem) by done.
      eexists _, _, _. split; [done|]. split; [done|]. simpl.
      split; split; done.
    + rewrite (run_Get_fixed _ now2 k tc theItem) by done.
      eexists _, _, _. split; [done|]. split; [done|]. simpl.
      split; split; done.
  - rewrite run_Get_absent by done.
    eexists _, _, _. split; [done|]. split; [done|]. simpl.
    split; split; done.
Qed.

(** X7. [PutRefreshing(k, v, ttl)] followed by [Get(k)] returns [v] with
    no error, and the entry is then due [ttl] after the [Get], not after
    the store. *)
Theorem PutRefreshing_then_Get now1 now2 k v ttl tc :
  mu tc = false ->
  exists tc2,
    run_calls range_order [(now1, call_PutRefreshing k v ttl); (now2, call_Get k)] tc =
      Returned [res_none; res_value v no_error] tc2 /\
    items tc2 !! k = Some (mkItem v (now2 + ttl) true ttl).
Proof.
  intros Hmu. cbn [run_calls].
  rewrite run_call_prog, run_PutRefreshing by done. cbv beta iota.
  rewrite run_call_prog.
  rewrite (run_Get_refreshing _ now2 k _ (mkItem v (Add now1 ttl) true ttl));
    [|done|apply lookup_insert_eq|done].
  eexists. split; [done|]. apply lookup_insert_eq.
Qed.

(** ** Sweeps *)

(** X8. Two sweeps in a row remove what one sweep at the later of the
    two clock readings removes; in particular a second sweep at the same
    or an earlier reading removes nothing. *)
Theorem RemoveExpired_twice now1 now2 tc :
  mu tc = false ->
  exists tc2,
    run_calls range_order [(now1, call_RemoveExpired); (now2, call_RemoveExpired)] tc =
      Returned [res_none; res_none] tc2 /\
    exec (Z.max now1 now2) RemoveExpired tc = Returned tt tc2.
Proof.
  intros Hmu. cbn [run_calls].
  rewrite run_call_prog, run_RemoveExpired by done. cbv beta iota.
  rewrite run_call_prog, run_RemoveExpired by done.
  rewrite run_RemoveExpired by done.
  eexists. split; [done|].
  set (tc1 := set_items (foldl (sweep_visit now1) (items tc)
                           (range_order (items tc))) tc).
  assert (Heq : foldl (sweep_visit now2) (items tc1) (range_order (items tc1)) =
                foldl (sweep_visit (Z.max now1 now2)) (items tc)
                  (range_order (items tc))).
  { apply map_eq. intros j.
    rewrite !(RemoveExpired_lookup _ range_order_perm).
    subst tc1. cbn [items set_items].
    rewrite (RemoveExpired_lookup _ range_order_perm).
    destruct (items tc !! j) as [it|]; [|done].
    unfold Before.
    destruct (ExpiresAt it <? now1) eqn:H1; cbv beta iota;
      destruct (ExpiresAt it <? now2) eqn:H2; cbv beta iota;
      destruct (ExpiresAt it <? Z.max now1 now2) eqn:H3; try done;
      rewrite ?Z.ltb_lt, ?Z.ltb_ge in H1, H2, H3; lia. }
  rewrite <- Heq. subst tc1. by destruct tc.
Qed.

(** ** Leases *)

Lemma sweep_keeps_unexpired now k tc it :
  mu tc = false -> items tc !! k = Some it -> now <= ExpiresAt it ->
  exists tc',
    exec now (call_prog call_RemoveExpired) tc = Returned res_none tc' /\
    mu tc' = false /\ items tc' !! k = Some it.
Proof.
  intros Hmu Hk Hle. rewrite run_call_prog, run_RemoveExpired by done.
  eexists. split; [done|]. split; [done|]. cbn [items set_items].
  rewrite (RemoveExpired_lookup _ range_order_perm), Hk.
  unfold Before. by rewrite (proj2 (Z.ltb_ge _ _) Hle).
Qed.

Lemma sweep_removes_expired now k tc :
  mu tc = false ->
  (forall it, items tc !! k = Some it -> ExpiresAt it < now) ->
  exists tc',
    exec now (call_prog call_RemoveExpired) tc = Returned res_none tc' /\
    mu tc' = false /\ items tc' !! k = None.
Proof.
  intros Hmu Hlt. rewrite run_call_prog, run_RemoveExpired by done.
  eexists. split; [done|]. split; [done|]. cbn [items set_items].
  rewrite (RemoveExpired_lookup _ range_order_perm).
  destruct (items tc !! k) as [it|]; [|done].
  unfold Before. by rewrite (proj2 (Z.ltb_lt _ _) (Hlt it eq_refl)).
Qed.

Lemma refresh_keeps_alive_from k R content visits :
  Forall (fun ts : Time * Time => ts.2 <= ts.1 + R) visits ->
  forall tc it0,
    mu tc = false -> items tc !! k = Some it0 ->
    Content it0 = content -> KeepRefreshing it0 = true -> RefreshBy it0 = R ->
    exists tc' it',
      run_calls range_order (flat_map (visit k) visits) tc =
        Returned (flat_map (fun _ => [res_value content no_error; res_none])
                    visits) tc' /\
      items tc' !! k = Some it' /\
      Content it' = content /\ KeepRefreshing it' = true /\ RefreshBy it' = R.
Proof.
  induction 1 as [|[t s] visits Hts _ IH]; intros tc it0 Hmu Hk Hc Hr HR.
  - exists tc, it0. by repeat split.
  - cbn [flat_map visit fst snd app run_calls].
    rewrite run_call_prog, (run_Get_refreshing _ t k tc it0) by done.
    cbv beta iota. cbn [fst snd]. rewrite Hc.
    set (it1 := set_ExpiresAt (Add t (RefreshBy it0)) it0).
    set (tc1 := set_items _ tc).
    destruct (sweep_keeps_unexpired s k tc1 it1) as (tc2 & -> & Hmu2 & Hk2);
      [done | apply lookup_insert_eq | simpl in *; unfold Add; lia |].
    destruct (IH tc2 it1 Hmu2 Hk2) as (tc' & it' & -> & Hres);
      [done | done | done |].
    by exists tc', it'.
Qed.

(** X9. Reading keeps a refreshing entry alive: if every sweep comes no
    later than [RefreshBy] after the [Get] before it, then however many
    such rounds there are, and however long they take in total, every
    [Get] returns the content with no error and the entry is still in
    the table at the end; the entry may even be past due when the first
    [Get] arrives. *)
Theorem refresh_keeps_alive k tc theItem visits :
  mu tc = false ->
  items tc !! k = Some theItem ->
  KeepRefreshing theItem = true ->
  Forall (fun ts : Time * Time => ts.2 <= ts.1 + RefreshBy theItem) visits ->
  exists tc' it',
    run_calls range_order (flat_map (visit k) visits) tc =
      Returned (flat_map (fun _ => [res_value (Content theItem) no_error;
                                    res_none]) visits) tc' /\
    items tc' !! k = Some it' /\
    Content it' = Content theItem /\ KeepRefreshing it' = true /\
    RefreshBy it' = RefreshBy theItem.
Proof.
  intros Hmu Hk Hr Hvisits.
  by apply (refresh_keeps_alive_from k (RefreshBy theItem) (Content theItem)
              visits Hvisits tc theItem).
Qed.

(** X10. A refreshing entry does lapse: when a sweep comes later than
    [RefreshBy] after the last [Get], the entry is removed and the next
    [Get] returns nil with the not-found error. *)
Theorem refresh_gap_expires t s u k tc theItem :
  mu tc = false ->
  items tc !! k = Some theItem ->
  KeepRefreshing theItem = true ->
  t + RefreshBy theItem < s ->
  exists tc',
    run_calls range_order [(t, call_Get k); (s, call_RemoveExpired); (u, call_Get k)] tc =
    Returned [res_value (Content theItem) no_error; res_none;
              res_value None item_not_found] tc'.
Proof.
  intros Hmu Hk Hr Hgap. cbn [run_calls].
  rewrite run_call_prog, (run_Get_refreshing _ t k tc theItem) by done.
  cbv beta iota. cbn [fst snd].
  set (tc1 := set_items _ tc).
  destruct (sweep_removes_expired s k tc1) as (tc2 & -> & Hmu2 & Hk2); [done| |].
  { intros it. subst tc1. cbn [items set_items]. rewrite lookup_insert_eq.
    intros [= <-]. simpl. unfold Add. lia. }
  rewrite run_call_prog, run_Get_absent by done.
  by eexists.
Qed.

Lemma absent_stays_absent key cs tc :
  mu tc = false ->
  Forall (fun c => leaves_entry key c.2 = true) cs ->
  items tc !! key = None ->
  exists rs tc',
    run_calls range_order cs tc = Returned rs tc' /\ mu tc' = false /\
    items tc' !! key = None.
Proof.
  intros Hmu Hcs Hk.
  destruct (leaves_entry_calls range_order range_order_perm key cs tc Hmu Hcs)
    as (rs & tc' & Hrun & Hmu' & Hkeep).
  exists rs, tc'. split; [done|]. split; [done|].
  destruct (items tc' !! key) as [it'|] eqn:Hk'; [|done].
  destruct (Hkeep it' eq_refl) as (it & Hit & _). congruence.
Qed.

(** A fixed entry under reads, deletes of other keys and sweeps: it is
    as it was, or a sweep past its deadline has removed it. *)
Lemma fixed_entry_calls key it cs :
  KeepRefreshing it = false ->
  Forall (fun c => leaves_entry key c.2 = true) cs ->
  forall tc,
    mu tc = false -> items tc !! key = Some it ->
    exists rs tc',
      run_calls range_order cs tc = Returned rs tc' /\ mu tc' = false /\
      (items tc' !! key = Some it \/
       (items tc' !! key = None /\
        Exists (fun c : Time * call V =>
                  c.2 = call_RemoveExpired /\ ExpiresAt it < c.1) cs)).
Proof.
  intros Hfix. induction 1 as [|[now c] rest Hc Hrest IH]; intros tc Hmu Hk.
  - exists [], tc. split; [done|]. split; [done|]. by left.
  - cbn [run_calls].
    assert (Hstep : exists r tc1,
               exec now (call_prog c) tc = Returned r tc1 /\ mu tc1 = false /\
               (items tc1 !! key = Some it \/
                (items tc1 !! key = None /\ c = call_RemoveExpired /\
                 ExpiresAt it < now))).
    { destruct c as [k v d|k v d|k|k|k|]; simpl in Hc; try done.
      - apply bool_decide_eq_true in Hc.
        rewrite run_call_prog, run_Delete by done.
        eexists _, _. split; [done|]. split; [done|]. left.
        cbn [items set_items]. by rewrite lookup_delete_ne.
      - destruct (decide (k = key)) as [->|Hne].
        + rewrite run_call_prog, (run_Get_fixed _ now key tc it) by done.
          eexists _, _. split; [done|]. split; [done|]. by left.
        + rewrite (run_keyed_call now (call_Get k) k tc eq_refl Hmu).
          eexists _, _. split; [done|]. split; [done|]. left.
          cbn [items set_items]. rewrite lookup_partial_alter.
          by rewrite decide_False.
      - rewrite run_call_prog, run_KeyExists by done.
        eexists _, _. split; [done|]. split; [done|]. by left.
      - destruct (Z.lt_ge_cases (ExpiresAt it) now) as [Hlt|Hge].
        + destruct (sweep_removes_expired now key tc Hmu)
            as (tc1 & -> & Hmu1 & Hk1).
          { intros it0. rewrite Hk. by intros [= <-]. }
          eexists _, _. split; [done|]. split; [done|]. by right.
        + destruct (sweep_keeps_unexpired now key tc it Hmu Hk Hge)
            as (tc1 & -> & Hmu1 & Hk1).
          eexists _, _. split; [done|]. split; [done|]. by left. }
    destruct Hstep as (r & tc1 & -> & Hmu1 & [Hk1|(Hk1 & -> & Hlt)]).
    + destruct (IH tc1 Hmu1 Hk1) as (rs & tc' & -> & Hmu' & Hcase).
      eexists _, _. split; [done|]. split; [done|].
      destruct Hcase as [?|[? ?]]; [by left|right].
      split; [done|]. by apply Exists_cons_tl.
    + destruct (absent_stays_absent key rest tc1 Hmu1 Hrest Hk1)
        as (rs & tc' & -> & Hmu' & Hk').
      eexists _, _. split; [done|]. split; [done|]. right.
      split; [done|]. by apply Exists_cons_hd.
Qed.

(** X11. Reading does not extend a fixed entry: after [Put(k, v, ttl)] at
    time [t0], whatever [Get]s and [KeyExists] of any keys, [Delete]s of
    other keys and sweeps follow, a sweep after [t0 + ttl] leaves the
    key absent and the next [Get] returns nil with the not-found
    error. *)
Theorem fixed_entry_expires_despite_reads t0 s u k v ttl cs tc :
  mu tc = false ->
  Forall (fun c => leaves_entry k c.2 = true) cs ->
  t0 + ttl < s ->
  exists rs tc',
    run_calls range_order ((t0, call_Put k v ttl) :: cs ++
                [(s, call_RemoveExpired); (u, call_Get k)]) tc =
    Returned (res_none :: rs ++ [res_none; res_value None item_not_found]) tc'.
Proof.
  intros Hmu Hcs Hdue. cbn [run_calls].
  rewrite run_call_prog, run_Put by done. cbv beta iota.
  set (it := mkItem v (Add t0 ttl) false 0).
  set (tc1 := set_items _ tc).
  destruct (fixed_entry_calls k it cs eq_refl Hcs tc1) as (rs & tc2 & Hrun & Hmu2 & Hcase);
    [done | apply lookup_insert_eq |].
  rewrite run_calls_app, Hrun.
  cbn [run_calls].
  destruct (sweep_removes_expired s k tc2 Hmu2) as (tc3 & -> & Hmu3 & Hk3).
  { intros it0 Hit0. destruct Hcase as [Hk2|[Hk2 _]]; [|congruence].
    rewrite Hk2 in Hit0. injection Hit0 as <-. simpl. unfold Add. lia. }
  rewrite run_call_prog, run_Get_absent by done.
  by eexists _, _.
Qed.

(** X12. A fixed entry lasts until it is due: after [Put(k, v, ttl)] at
    time [t0], as long as every sweep comes no later than [t0 + ttl],
    reads, deletes of other keys and sweeps leave the entry in the table
    exactly as stored, [ExpiresAt] included. *)
Theorem fixed_entry_lasts_until_due t0 k v ttl cs tc :
  mu tc = false ->
  Forall (fun c : Time * call V =>
            leaves_entry k c.2 = true /\
            (c.2 = call_RemoveExpired -> c.1 <= t0 + ttl)) cs ->
  exists rs tc',
    run_calls range_order ((t0, call_Put k v ttl) :: cs) tc = Returned (res_none :: rs) tc' /\
    items tc' !! k = Some (mkItem v (Add t0 ttl) false 0).
Proof.
  intros Hmu Hcs. cbn [run_calls].
  rewrite run_call_prog, run_Put by done. cbv beta iota.
  set (it := mkItem v (Add t0 ttl) false 0).
  set (tc1 := set_items _ tc).
  destruct (fixed_entry_calls k it cs eq_refl) with (tc := tc1)
    as (rs & tc2 & Hrun & Hmu2 & Hcase);
    [by eapply Forall_impl; [exact Hcs|intros ? [? _]] | done
    | apply lookup_insert_eq |].
  rewrite Hrun.
  exists rs, tc2. split; [done|].
  destruct Hcase as [Hk2|[_ Hex]]; [done|].
  exfalso. apply Exists_exists in Hex as (c & Hin & Hsweep & Hlate).
  apply (proj1 (Forall_forall _ _) Hcs c) in Hin as [_ Hearly].
  specialize (Hearly Hsweep). simpl in Hlate. unfold Add in Hlate. lia.
Qed.

(** ** Any sequence of calls *)

(** X13. No method writes [interval] or keeps the mutex: whatever calls
    a caller makes one after the other, each of them returns, the
    interval of the cache is the one it was built with, and the mutex is
    free again. *)
Theorem calls_keep_interval_and_release_mutex cs tc :
  mu tc = false ->
  exists rs tc',
    run_calls range_order cs tc = Returned rs tc' /\
    length rs = length cs /\
    interval tc' = interval tc /\ mu tc' = false.
Proof.
  revert tc. induction cs as [|[now c] rest IH]; intros tc Hmu.
  - by exists [], tc.
  - cbn [run_calls].
    assert (Hstep : exists r tc1,
               exec now (call_prog c) tc = Returned r tc1 /\
               interval tc1 = interval tc /\ mu tc1 = false).
    { destruct (call_key c) as [k|] eqn:Hk.
      - rewrite (run_keyed_call now c k tc Hk Hmu). by eexists _, _.
      - destruct c; try done.
        rewrite run_call_prog, run_RemoveExpired by done. by eexists _, _. }
    destruct Hstep as (r & tc1 & -> & Hi1 & Hmu1).
    destruct (IH tc1 Hmu1) as (rs & tc' & -> & Hlen & Hi & Hmu').
    eexists _, _. split; [done|]. simpl. split; [by rewrite Hlen|].
    split; [congruence|done].
Qed.

End Compositions.

(** * Further properties of the constructors and the sweep goroutine *)

Section Goroutines.

Context {V : Type}.
Variable range_order : gmap string (cacheItem V) -> list string.

(** ** The heap behind a pointer *)

Lemma deref_commit h p (tc tc1 : TimedCache V) :
  deref h p = Some tc -> deref (commit h p tc1) p = Some tc1.
Proof.
  intros Hd. destruct (deref_Some _ _ _ Hd) as (v & Hv & _ & _).
  unfold deref, commit. rewrite Hv. simpl.
  rewrite lookup_insert_eq. simpl. rewrite ?lookup_insert_eq.
  by destruct tc1.
Qed.

Lemma commit_commit h p (tc tc1 tc2 : TimedCache V) :
  deref h p = Some tc ->
  commit (commit h p tc1) p tc2 = commit h p tc2.
Proof.
  intros Hd. destruct (deref_Some _ _ _ Hd) as (v & Hv & _ & _).
  unfold commit. rewrite Hv. simpl. rewrite lookup_insert_eq. simpl.
  by rewrite !insert_insert_eq.
Qed.

Lemma commit_id h p (tc : TimedCache V) :
  deref h p = Some tc -> commit h p tc = h.
Proof.
  intros Hd. destruct (deref_Some _ _ _ Hd) as (v & Hv & Hmu & Hm).
  unfold deref in Hd. rewrite Hv, Hm in Hd. injection Hd as <-.
  unfold commit. rewrite Hv. simpl.
  rewrite !insert_id; [by destruct h | by destruct v | done].
Qed.

(** A stored table that another pointer does not refer to is out of
    reach of what is written back through that pointer. *)
Lemma deref_commit_other h p p0 v v0 (tc1 tc0 : TimedCache V) :
  vars h !! p = Some v -> vars h !! p0 = Some v0 ->
  p0 ≠ p -> v_items v0 ≠ v_items v ->
  deref h p0 = Some tc0 ->
  deref (commit h p tc1) p0 = Some tc0.
Proof.
  intros Hv Hv0 Hp Hm Hd. unfold deref, commit in *. rewrite Hv. simpl.
  rewrite lookup_insert_ne by done. rewrite Hv0 in *.
  by rewrite lookup_insert_ne.
Qed.

(** ** A goroutine that runs alone *)

Lemma gstep_prim now i h gs g tc (p1 : prog V (result V)) tc1 :
  gs !! i = Some g -> deref h (recv g) = Some tc ->
  step1 range_order now (code g) tc = Some (p1, tc1) ->
  gstep range_order now i (h, gs) =
  Some (commit h (recv g) tc1,
        <[i := mkGo (recv g) p1 (loop g) (enters (code g) (critical g))]> gs).
Proof.
  intros Hg Hd Hs. unfold gstep. rewrite Hg.
  destruct (code g) eqn:Hc; [done|..]; destruct (loop g);
    by rewrite Hd, Hs.
Qed.

Lemma alone_step now i h gs g tc (p1 : prog V (result V)) tc1 a tc' n :
  gs !! i = Some g -> deref h (recv g) = Some tc ->
  step1 range_order now (code g) tc = Some (p1, tc1) ->
  bracketed (critical g) false (code g) ->
  (forall h1 gs1 g1,
     gs1 !! i = Some g1 -> code g1 = p1 -> deref h1 (recv g1) = Some tc1 ->
     bracketed (critical g1) false p1 ->
     gsteps range_order (replicate n (i, now)) (h1, gs1) =
     Some (commit h1 (recv g1) tc',
           <[i := mkGo (recv g1) (Ret a) (loop g1) false]> gs1)) ->
  gsteps range_order (replicate (S n) (i, now)) (h, gs) =
  Some (commit h (recv g) tc',
        <[i := mkGo (recv g) (Ret a) (loop g) false]> gs).
Proof.
  intros Hg Hd Hs Hb Hrest.
  set (g1 := mkGo (recv g) p1 (loop g) (enters (code g) (critical g))).
  cbn [replicate gsteps].
  rewrite (gstep_prim now i h gs g tc p1 tc1 Hg Hd Hs). fold g1.
  rewrite (Hrest (commit h (recv g) tc1) (<[i := g1]> gs) g1).
  - simpl. by rewrite (commit_commit h (recv g) tc), list_insert_insert_eq.
  - apply list_lookup_insert_eq. by eapply lookup_lt_Some.
  - done.
  - by eapply deref_commit.
  - by eapply step1_bracketed.
Qed.

(** A goroutine that runs alone does what [run] says, in [prim_steps]
    steps. *)
Lemma alone_runs now i (p : prog V (result V)) :
  forall tc a tc',
    run range_order now p tc = Returned a tc' ->
    forall h gs g,
      gs !! i = Some g -> code g = p -> deref h (recv g) = Some tc ->
      bracketed (critical g) false p ->
      gsteps range_order (replicate (prim_steps range_order now p tc) (i, now))
        (h, gs) =
      Some (commit h (recv g) tc',
            <[i := mkGo (recv g) (Ret a) (loop g) false]> gs).
Proof.
  induction p as [a0|k IH|k IH|k IH|d k IH|k IH|key k IH|key it k IH|key k IH|k IH];
    intros tc a tc' Hrun h gs g Hg Hc Hd Hb; simpl in Hrun; simpl prim_steps.
  - injection Hrun as <- <-. simpl.
    assert (Hcrit : critical g = false) by (inversion Hb; congruence).
    rewrite (commit_id _ _ _ Hd), list_insert_id; [done|].
    rewrite Hg. f_equal. destruct g; simpl in *; congruence.
  - destruct (mu tc) eqn:Hm; [done|].
    rewrite <- Hc in Hb.
    apply (alone_step now i h gs g tc k (set_mu true tc) a tc' _ Hg Hd);
      [by rewrite Hc; simpl; rewrite Hm | exact Hb | intros; by eapply IH].
  - destruct (mu tc) eqn:Hm; [|done].
    rewrite <- Hc in Hb.
    apply (alone_step now i h gs g tc k (set_mu false tc) a tc' _ Hg Hd);
      [by rewrite Hc; simpl; rewrite Hm | exact Hb | intros; by eapply IH].
  - rewrite <- Hc in Hb.
    apply (alone_step now i h gs g tc (k now) tc a tc' _ Hg Hd);
      [by rewrite Hc | exact Hb | intros; by eapply IH].
  - rewrite <- Hc in Hb.
    apply (alone_step now i h gs g tc k tc a tc' _ Hg Hd);
      [by rewrite Hc | exact Hb | intros; by eapply IH].
  - rewrite <- Hc in Hb.
    apply (alone_step now i h gs g tc (k (interval tc)) tc a tc' _ Hg Hd);
      [by rewrite Hc | exact Hb | intros; by eapply IH].
  - rewrite <- Hc in Hb.
    apply (alone_step now i h gs g tc (k (items tc !! key)) tc a tc' _ Hg Hd);
      [by rewrite Hc | exact Hb | intros; by eapply IH].
  - rewrite <- Hc in Hb.
    apply (alone_step now i h gs g tc k
             (set_items (<[key := it]> (items tc)) tc) a tc' _ Hg Hd);
      [by rewrite Hc | exact Hb | intros; by eapply IH].
  - rewrite <- Hc in Hb.
    apply (alone_step now i h gs g tc k
             (set_items (delete key (items tc)) tc) a tc' _ Hg Hd);
      [by rewrite Hc | exact Hb | intros; by eapply IH].
  - rewrite <- Hc in Hb.
    apply (alone_step now i h gs g tc (k (range_order (items tc))) tc a tc' _ Hg Hd);
      [by rewrite Hc | exact Hb | intros; by eapply IH].
Qed.

Lemma gsteps_app sched1 sched2 (c : config V) :
  gsteps range_order (sched1 ++ sched2) c =
  match gsteps range_order sched1 c with
  | Some c1 => gsteps range_order sched2 c1
  | None => None
  end.
Proof.
  revert c. induction sched1 as [|[i now] rest IH]; intros c; [done|].
  simpl. destruct (gstep range_order now i c); [apply IH | done].
Qed.

Lemma run_startInterval_body now (tc : TimedCache V) :
  run range_order now (startInterval_body;; Ret (res_none (V:=V))) tc =
  match run range_order now RemoveExpired tc with
  | Returned _ tc' => Returned (res_none (V:=V)) tc'
  | Blocked => Blocked
  | Fatal msg => Fatal msg
  end.
Proof.
  unfold mbind, prog_bind. rewrite run_bind.
  unfold startInterval_body, mbind, prog_bind, get_interval, time_Sleep.
  cbn [bind run]. reflexivity.
Qed.

(** ** Counting steps *)

Lemma prim_steps_bind {A B : Type} now (p : prog V A) (f : A -> prog V B) tc :
  prim_steps range_order now (bind p f) tc =
  (prim_steps range_order now p tc +
   match run range_order now p tc with
   | Returned a tc' => prim_steps range_order now (f a) tc'
   | _ => 0
   end)%nat.
Proof.
  revert tc.
  induction p as [a|k IH|k IH|k IH|d k IH|k IH|key k IH|key it k IH|key k IH|k IH];
    intros tc; simpl; try done; try (by rewrite IH).
  - destruct (mu tc); [done | by rewrite IH].
  - destruct (mu tc); [by rewrite IH | done].
Qed.

Lemma prim_steps_range_from {B : Type} now timeNow keys
    (f : unit -> prog V B) tc :
  prim_steps range_order now
    (bind (range_from keys (fun key curItem =>
             if Before (ExpiresAt curItem) timeNow
             then MapDelete key (Ret tt) else Ret tt)) f) tc =
  (range_steps timeNow keys (items tc) +
   prim_steps range_order now (f tt)
     (set_items (foldl (sweep_visit timeNow) (items tc) keys) tc))%nat.
Proof.
  revert tc. induction keys as [|key rest IH]; intros tc.
  - cbn. by rewrite set_items_id.
  - cbn. unfold sweep_visit at 2.
    destruct (items tc !! key) as [curItem|] eqn:Hk; cbn.
    + destruct (Before (ExpiresAt curItem) timeNow); cbn.
      * rewrite (IH (set_items _ tc)). by destruct tc.
      * by rewrite IH.
    + by rewrite IH.
Qed.

Lemma prim_steps_startInterval_body now (tc : TimedCache V) :
  mu tc = false ->
  S (prim_steps range_order now (startInterval_body;; Ret (res_none (V:=V))) tc) =
  turn_steps range_order now (items tc).
Proof.
  intros Hmu. unfold turn_steps, mbind, prog_bind. rewrite prim_steps_bind.
  destruct (run range_order now startInterval_body tc) as [a tc'| |];
    cbn [prim_steps]; rewrite Nat.add_0_r;
    unfold startInterval_body, RemoveExpired, mbind, prog_bind, get_interval,
      time_Sleep, lock, unlock, time_Now, range;
    cbn [bind prim_steps]; rewrite Hmu; cbn [bind prim_steps items set_mu];
    rewrite (prim_steps_range_from now now (range_order (items tc))
               (fun _ => Unlock (Ret tt)));
    cbn; lia.
Qed.

(** One turn of the loop, the goroutine alone on the heap. *)
Lemma startInterval_turn now i h gs p tc :
  gs !! i = Some (startInterval p) -> deref h p = Some tc -> mu tc = false ->
  gsteps range_order (replicate (turn_steps range_order now (items tc)) (i, now))
    (h, gs) =
  Some (commit h p
          (set_items (foldl (sweep_visit now) (items tc) (range_order (items tc)))
             tc), gs).
Proof.
  intros Hg Hd Hmu.
  pose proof (run_RemoveExpired range_order now tc Hmu) as Hrun.
  set (tc' := set_items _ tc) in *.
  assert (Hbody : run range_order now (code (startInterval (V:=V) p)) tc =
                  Returned res_none tc')
    by (cbn [code startInterval]; by rewrite run_startInterval_body, Hrun).
  pose proof (alone_runs now i _ tc res_none tc' Hbody h gs _ Hg eq_refl Hd
                startInterval_bracketed) as Hn.
  rewrite <- (prim_steps_startInterval_body now tc Hmu).
  cbn [code startInterval] in Hn.
  set (n := prim_steps _ _ _ _) in *.
  replace (S n) with (n + 1)%nat by lia.
  rewrite replicate_add, gsteps_app, Hn. simpl.
  rewrite list_lookup_insert_eq by (by eapply lookup_lt_Some). simpl.
  rewrite list_insert_insert_eq. do 2 f_equal.
  by apply list_insert_id.
Qed.

(** ** The goroutine never gets stuck *)

Lemma step1_enabled {A : Type} now (p : prog V A) tc held :
  bracketed held false p -> mu tc = held ->
  (exists a, p = Ret a) \/
  exists p1 tc1, step1 range_order now p tc = Some (p1, tc1).
Proof.
  intros Hb Hmu. destruct p; simpl; eauto.
  - replace (mu tc) with false by (inversion Hb; congruence). eauto.
  - replace (mu tc) with true by (inversion Hb; congruence). eauto.
Qed.

(** A goroutine with a loop, alone on its receiver: whatever it has
    done so far, it can take one more step. *)
Lemma alone_progress now i h gs g tc body :
  gs !! i = Some g -> deref h (recv g) = Some tc ->
  mu tc = critical g ->
  bracketed (critical g) false (code g) ->
  loop g = Some body -> bracketed false false body ->
  exists h' g' tc',
    gstep range_order now i (h, gs) = Some (h', <[i := g']> gs) /\
    recv g' = recv g /\ deref h' (recv g') = Some tc' /\
    mu tc' = critical g' /\
    bracketed (critical g') false (code g') /\
    loop g' = Some body.
Proof.
  intros Hg Hd Hmu Hb Hl Hbody.
  destruct (step1_enabled now (code g) tc (critical g) Hb Hmu)
    as [[a Ha]|(p1 & tc1 & Hs)].
  - assert (Hcrit : critical g = false)
      by (rewrite Ha in Hb; inversion Hb; congruence).
    exists h, (mkGo (recv g) body (loop g) (critical g)), tc.
    split; [unfold gstep; by rewrite Hg, Ha, Hl|].
    simpl. rewrite Hcrit in *. by repeat split.
  - exists (commit h (recv g) tc1),
      (mkGo (recv g) p1 (loop g) (enters (code g) (critical g))), tc1.
    split; [by apply gstep_prim with tc|].
    simpl. split; [done|]. split; [by eapply deref_commit|].
    split.
    + destruct (step1_mu _ _ _ _ _ _ Hs) as [_ ->].
      destruct (code g); simpl; try done;
        inversion Hb; congruence.
    + split; [by eapply step1_bracketed | done].
Qed.

Lemma alone_never_stuck i body sched :
  Forall (fun s : nat * Time => s.1 = i) sched ->
  bracketed false false body ->
  forall h gs g tc,
    gs !! i = Some g -> deref h (recv g) = Some tc ->
    mu tc = critical g ->
    bracketed (critical g) false (code g) ->
    loop g = Some body ->
    exists c' g',
      gsteps range_order sched (h, gs) = Some c' /\
      c'.2 !! i = Some g' /\ loop g' = Some body.
Proof.
  intros Hsched Hbody.
  induction Hsched as [|[j now] rest Hj _ IH]; intros h gs g tc Hg Hd Hmu Hb Hl.
  - exists (h, gs), g. by repeat split.
  - simpl in Hj. subst j. cbn [gsteps].
    destruct (alone_progress now i h gs g tc body Hg Hd Hmu Hb Hl Hbody)
      as (h' & g' & tc' & -> & Hr & Hd' & Hmu' & Hb' & Hl').
    apply (IH h' (<[i := g']> gs) g' tc'); try done.
    apply list_lookup_insert_eq. by eapply lookup_lt_Some.
Qed.

Lemma turns_schedule_length i turns (m : gmap string (cacheItem V)) :
  (7 * length turns <= length (turns_schedule range_order i turns m))%nat.
Proof.
  revert m. induction turns as [|t turns IH]; intros m; simpl; [lia|].
  rewrite length_app, length_replicate. unfold turn_steps.
  specialize (IH (foldl (sweep_visit t) m (range_order m))). lia.
Qed.

(** X14. [startInterval] never returns, and each turn of its loop is one
    [RemoveExpired].  The goroutine alone on its receiver, at the head
    of its loop with the mutex free: whatever number of its steps is
    scheduled, at whatever clock readings, it takes them all and still
    has its loop to go on with; and the schedule of one full turn per
    clock reading of [turns], at least seven steps each, leaves the
    table that as many calls of [RemoveExpired] at these readings leave,
    with the goroutine back at the head of its loop. *)
Theorem startInterval_sweeps_forever i h gs p tc :
  gs !! i = Some (startInterval p) ->
  deref h p = Some tc ->
  mu tc = false ->
  (forall sched,
     Forall (fun s : nat * Time => s.1 = i) sched ->
     exists c' g',
       gsteps range_order sched (h, gs) = Some c' /\
       c'.2 !! i = Some g' /\
       loop g' = Some (startInterval_body;; Ret res_none)) /\
  (forall turns,
     exists rs tc',
       run_calls range_order ((fun t => (t, call_RemoveExpired)) <$> turns) tc =
         Returned rs tc' /\
       gsteps range_order (turns_schedule range_order i turns (items tc)) (h, gs) =
         Some (commit h p tc', gs) /\
       Forall (fun s : nat * Time => s.1 = i /\ s.2 ∈ turns)
         (turns_schedule range_order i turns (items tc)) /\
       (7 * length turns <=
        length (turns_schedule range_order i turns (items tc)))%nat).
Proof.
  intros Hg Hd Hmu. split.
  - intros sched Hsched.
    apply (alone_never_stuck i _ sched Hsched startInterval_bracketed
             h gs (startInterval p) tc); try done.
    apply startInterval_bracketed.
  - intros turns. revert h tc Hd Hmu.
    induction turns as [|t turns IH]; intros h tc Hd Hmu.
    + exists [], tc. split; [done|]. simpl.
      rewrite (commit_id _ _ _ Hd). split; [done|]. split; [constructor|lia].
    + pose proof (startInterval_turn t i h gs p tc Hg Hd Hmu) as Hturn.
      pose proof (run_RemoveExpired range_order t tc Hmu) as Hrun.
      set (tc1 := set_items _ tc) in *.
      destruct (IH (commit h p tc1) tc1) as (rs & tc' & Hcalls & Hrest & Honly & _);
        [by eapply deref_commit | done |].
      exists (res_none :: rs), tc'.
      split.
      { cbn [fmap list_fmap run_calls].
        rewrite (run_call_prog range_order), Hrun.
        change (list_fmap _ _ ?f turns) with (f <$> turns). by rewrite Hcalls. }
      split.
      { cbn [turns_schedule]. rewrite gsteps_app, Hturn.
        change (foldl (sweep_visit t) (items tc) (range_order (items tc)))
          with (items tc1).
        rewrite Hrest. by rewrite (commit_commit h p tc). }
      split; [|apply turns_schedule_length].
      cbn [turns_schedule]. apply Forall_app. split.
      * apply Forall_replicate. split; [done|]. simpl. left.
      * change (foldl (sweep_visit t) (items tc) (range_order (items tc)))
          with (items tc1).
        eapply Forall_impl; [exact Honly|].
        intros s [? ?]. split; [done|]. by right.
Qed.

(** ** The constructors *)

(** X15. [NewWithCustomInterval(d)] when the caller returns before any
    goroutine takes a step, its result kept in a variable
    [sessionStore]: the cache is empty, has interval [d] and a free
    mutex; one goroutine more runs, the loop of [startInterval], on a
    struct variable [newCache] other than [sessionStore]; and the caches
    that existed before are out of reach: they are behind other
    pointers, are as they were, and stay so whatever is written back
    through [sessionStore] or [newCache].  [New] is the same with
    [time.Minute], whatever runs before it returns. *)
Theorem NewWithCustomInterval_fresh_cache d (c : config V) :
  (forall between,
     New range_order between c =
     NewWithCustomInterval range_order Minute between c) /\
  exists value c1,
    NewWithCustomInterval range_order d [] c = Some (value, c1) /\
    let sessionStore := (assign_var value c1).1 in
    let c' := (assign_var value c1).2 in
    deref c'.1 sessionStore = Some (mkCache ∅ d false) /\
    exists newCache,
      c'.2 = c.2 ++ [startInterval newCache] /\
      newCache ≠ sessionStore /\
      deref c'.1 newCache = Some (mkCache ∅ d false) /\
      forall p0 tc0,
        deref c.1 p0 = Some tc0 ->
        p0 ≠ sessionStore /\ p0 ≠ newCache /\
        deref c'.1 p0 = Some tc0 /\
        forall tc1,
          deref (commit c'.1 sessionStore tc1) p0 = Some tc0 /\
          deref (commit c'.1 newCache tc1) p0 = Some tc0.
Proof.
  destruct c as [h gs]. split; [done|].
  unfold NewWithCustomInterval, NewWithCustomInterval_go, return_copy.
  cbn [gsteps fst snd vars tables].
  set (m := fresh (dom (tables h))).
  set (q := fresh (dom (vars h))).
  set (value := mkValue m d false).
  rewrite lookup_insert_eq. eexists _, _. split; [reflexivity|].
  unfold assign_var. cbn [fst snd vars tables].
  set (p := fresh (dom (<[q := value]> (vars h)))).
  assert (Hm : tables h !! m = None)
    by (apply not_elem_of_dom; apply is_fresh).
  assert (Hq : vars h !! q = None)
    by (apply not_elem_of_dom; apply is_fresh).
  assert (Hp : <[q := value]> (vars h) !! p = None)
    by (apply not_elem_of_dom; apply is_fresh).
  assert (Hpq : q ≠ p).
  { intros <-. by rewrite lookup_insert_eq in Hp. }
  assert (Hp' : vars h !! p = None) by (by rewrite lookup_insert_ne in Hp).
  set (h' := mkHeap (<[m := ∅]> (tables h)) (<[p := value]> (<[q := value]> (vars h)))).
  assert (Hvp : vars h' !! p = Some value) by apply lookup_insert_eq.
  assert (Hvq : vars h' !! q = Some value).
  { simpl. rewrite lookup_insert_ne by done. apply lookup_insert_eq. }
  assert (Hdp : deref h' p = Some (mkCache ∅ d false)).
  { unfold deref. rewrite Hvp. simpl. by rewrite lookup_insert_eq. }
  assert (Hdq : deref h' q = Some (mkCache ∅ d false)).
  { unfold deref. rewrite Hvq. simpl. by rewrite lookup_insert_eq. }
  split; [exact Hdp|]. exists q. split; [done|]. split; [done|].
  split; [exact Hdq|].
  intros p0 tc0 Hd0.
  destruct (deref_Some _ _ _ Hd0) as (v0 & Hv0 & _ & Hm0).
  assert (Hp0 : p0 ≠ p) by congruence.
  assert (Hq0 : p0 ≠ q) by congruence.
  assert (Hm0' : v_items v0 ≠ m) by congruence.
  assert (Hv0' : vars h' !! p0 = Some v0).
  { simpl. by rewrite !lookup_insert_ne. }
  assert (Hd0' : deref h' p0 = Some tc0).
  { unfold deref in *. rewrite Hv0', Hv0 in *. simpl.
    by rewrite lookup_insert_ne. }
  split; [done|]. split; [done|]. split; [done|].
  intros tc1. split.
  - by apply (deref_commit_other h' p p0 value v0).
  - by apply (deref_commit_other h' q p0 value v0).
Qed.

Lemma run_locked now (c : call V) tc :
  mu tc = true -> run range_order now (call_prog c) tc = Blocked.
Proof.
  intros Hmu. destruct c; cbn; by rewrite Hmu.
Qed.

Lemma gstep_keeps_other_var now i h gs (c' : config V) p :
  gstep range_order now i (h, gs) = Some c' ->
  Forall (fun g => recv g ≠ p) gs ->
  vars c'.1 !! p = vars h !! p /\ Forall (fun g => recv g ≠ p) c'.2.
Proof.
  intros Hs Hall.
  apply gstep_inv in Hs as (g & Hg & [(a & body & _ & _ & ->)|(tc & p1 & tc1 & Hd & _ & ->)]).
  - split; [done|]. simpl. apply Forall_insert; [done|].
    apply (Forall_lookup_1 _ _ _ _ Hall Hg).
  - pose proof (Forall_lookup_1 _ _ _ _ Hall Hg) as Hne.
    destruct (deref_Some _ _ _ Hd) as (v & Hv & _ & _).
    simpl. rewrite (vars_commit _ _ v) by done.
    split; [by rewrite lookup_insert_ne|by apply Forall_insert].
Qed.

Lemma gsteps_keep_other_var sched (c c' : config V) p :
  gsteps range_order sched c = Some c' ->
  Forall (fun g => recv g ≠ p) c.2 ->
  vars c'.1 !! p = vars c.1 !! p.
Proof.
  revert c. induction sched as [|[i now] rest IH]; intros [h gs] Hs Hall.
  - by injection Hs as <-.
  - cbn [gsteps] in Hs.
    destruct (gstep range_order now i (h, gs)) as [c1|] eqn:H1; [|done].
    destruct (gstep_keeps_other_var _ _ _ _ _ p H1 Hall) as [Hv Hall1].
    rewrite (IH c1 Hs Hall1). exact Hv.
Qed.

(** X18. The copy made by [return newCache] is not ordered after the
    sweep: when the goroutine started by the [go] statement has slept
    and taken [newCache.mu] before the constructor returns (at once for
    an interval that is zero or negative), the caller gets a struct
    whose mutex is locked.  Every method called through [sessionStore]
    then blocks, and nothing the goroutines do afterwards frees that
    mutex: the sweep unlocks the one in [newCache]. *)
Theorem constructor_copy_can_be_locked d t (c : config V) :
  Forall (fun g => is_Some (vars c.1 !! recv g)) c.2 ->
  let sweep := length c.2 in
  exists value c1,
    NewWithCustomInterval range_order d [(sweep, t); (sweep, t); (sweep, t)] c =
      Some (value, c1) /\
    v_interval value = d /\ v_mu value = true /\
    let sessionStore := (assign_var value c1).1 in
    let c' := (assign_var value c1).2 in
    (exists tc,
       deref c'.1 sessionStore = Some tc /\ items tc = ∅ /\ mu tc = true /\
       forall now call, run range_order now (call_prog call) tc = Blocked) /\
    forall sched c'',
      gsteps range_order sched c' = Some c'' ->
      exists v, vars c''.1 !! sessionStore = Some v /\ v_mu v = true.
Proof.
  destruct c as [h gs]. intros Hrecv sweep. cbn [fst snd] in Hrecv, sweep.
  unfold NewWithCustomInterval, NewWithCustomInterval_go.
  set (m := fresh (dom (tables h))).
  set (q := fresh (dom (vars h))).
  set (v0 := mkValue m d false).
  set (h0 := mkHeap (<[m := ∅]> (tables h)) (<[q := v0]> (vars h))).
  set (gs0 := gs ++ [startInterval q]).
  set (tc0 := mkCache (V:=V) ∅ d false).
  assert (Hq : vars h !! q = None)
    by (apply not_elem_of_dom; apply is_fresh).
  assert (Hv0 : vars h0 !! q = Some v0) by apply lookup_insert_eq.
  assert (Hd0 : deref h0 q = Some tc0).
  { unfold deref. rewrite Hv0. simpl. by rewrite lookup_insert_eq. }
  assert (Hg0 : gs0 !! sweep = Some (startInterval q))
    by (by apply list_lookup_middle).
  (* interval read, sleep, lock *)
  cbn [gsteps].
  erewrite (gstep_prim t sweep h0 gs0 (startInterval q) tc0 _ _ Hg0 Hd0);
    [|reflexivity].
  match goal with |- context [<[sweep := ?g]> gs0] => set (g1 := g) end.
  change (recv (startInterval (V:=V) q)) with q.
  set (gs1 := <[sweep := g1]> gs0).
  assert (Hg1 : gs1 !! sweep = Some g1)
    by (apply list_lookup_insert_eq; by eapply lookup_lt_Some).
  pose proof (deref_commit h0 q tc0 tc0 Hd0) as Hd1.
  erewrite (gstep_prim t sweep _ gs1 g1 tc0 _ _ Hg1 Hd1); [|reflexivity].
  match goal with |- context [<[sweep := ?g]> gs1] => set (g2 := g) end.
  change (recv g1) with q.
  set (gs2 := <[sweep := g2]> gs1).
  assert (Hg2 : gs2 !! sweep = Some g2).
  { apply list_lookup_insert_eq. unfold gs1. rewrite length_insert.
    by eapply lookup_lt_Some. }
  pose proof (deref_commit _ q tc0 tc0 Hd1) as Hd2.
  erewrite (gstep_prim t sweep _ gs2 g2 tc0 _ _ Hg2 Hd2); [|reflexivity].
  match goal with |- context [<[sweep := ?g]> gs2] => set (g3 := g) end.
  change (recv g2) with q.
  set (gs3 := <[sweep := g3]> gs2).
  rewrite !(commit_commit h0 q tc0) by done.
  set (tc1 := set_mu true tc0).
  set (h3 := commit h0 q tc1).
  assert (Hv3 : vars h3 = <[q := mkValue m d true]> (vars h0))
    by (unfold h3; by rewrite (vars_commit h0 q v0 tc1 Hv0)).
  unfold return_copy. cbn [fst]. rewrite Hv3, lookup_insert_eq.
  eexists _, _. split; [reflexivity|]. split; [done|]. split; [done|].
  unfold assign_var. cbn [fst snd].
  set (p := fresh (dom (vars h3))).
  assert (Hp : vars h3 !! p = None)
    by (apply not_elem_of_dom; apply is_fresh).
  split.
  - exists tc1.
    pose proof (deref_commit h0 q tc0 tc1 Hd0) as Hd3. fold h3 in Hd3.
    destruct (deref_Some _ _ _ Hd3) as (v & Hv & _ & Hm).
    rewrite Hv3, lookup_insert_eq in Hv. injection Hv as <-. simpl in Hm.
    split.
    { unfold deref. simpl. rewrite lookup_insert_eq. simpl. by rewrite Hm. }
    split; [done|]. split; [done|].
    intros now call. by apply run_locked.
  - intros sched c'' Hs.
    exists (mkValue m d true). split; [|done].
    rewrite (gsteps_keep_other_var sched _ c'' p Hs).
    + simpl. apply lookup_insert_eq.
    + assert (Hqp : q ≠ p).
      { intros Heq. rewrite <- Heq, Hv3, lookup_insert_eq in Hp. done. }
      simpl. unfold gs3, gs2, gs1, gs0.
      do 3 (apply Forall_insert; [|exact Hqp]).
      apply Forall_app. split.
      * eapply Forall_impl; [exact Hrecv|]. intros g [v Hg] Heq.
        rewrite <- Heq, Hv3 in Hp. unfold h0 in Hp. simpl in Hp.
        destruct (decide (q = recv g)) as [Hqg|Hqg].
        -- rewrite Hqg, lookup_insert_eq in Hp. done.
        -- rewrite !lookup_insert_ne in Hp by done. congruence.
      * constructor; [exact Hqp|constructor].
Qed.

(** ** Locking *)

(** X16. Every method takes the mutex before it first touches the map
    and gives it back on every path, the not-found return of [Get]
    included; the loop of [startInterval] sleeps without the mutex. *)
Theorem methods_bracket_the_map :
  (forall c : call V, bracketed false false (call_prog c)) /\
  bracketed false false (startInterval_body (V:=V);; Ret (res_none (V:=V))).
Proof. split; [apply call_prog_bracketed | apply startInterval_bracketed]. Qed.

(** X17. Goroutines that go through the same pointer exclude each
    other: whatever sweeps and callers run on whatever pointers, and
    however they are scheduled, two goroutines with the same receiver
    are never inside their critical sections together. *)
Theorem same_pointer_excludes h (sweeps : list ptr)
    (callers : list (ptr * list (call V))) sched c' :
  gsteps range_order sched
    (h, (startInterval <$> sweeps) ++
        ((fun pc => mkGo pc.1 (calls_prog pc.2) None false) <$> callers))
    = Some c' ->
  forall i j gi gj,
    c'.2 !! i = Some gi -> c'.2 !! j = Some gj ->
    critical gi = true -> critical gj = true ->
    recv gi = recv gj -> i = j.
Proof.
  intros Hrun.
  match type of Hrun with gsteps _ _ ?c = _ => set (c0 := c) in * end.
  assert (Hinit : well_locked c0 /\ exclusive c0).
  { apply idle_exclusive. intros i g Hg. subst c0. simpl in Hg.
    apply lookup_app_Some in Hg as [Hg|[_ Hg]];
      rewrite list_lookup_fmap in Hg.
    - destruct (sweeps !! i) as [p|]; [|done]. injection Hg as <-. simpl.
      split; [done|]. split; [apply startInterval_bracketed|].
      intros body [= <-]. apply startInterval_bracketed.
    - destruct (callers !! _) as [[p cs]|]; [|done]. injection Hg as <-. simpl.
      split; [done|]. split; [apply calls_prog_bracketed | done]. }
  destruct Hinit as [Hwl Hex].
  destruct (gsteps_exclusive _ _ _ _ Hwl Hex Hrun) as [_ Hex'].
  exact Hex'.
Qed.

End Goroutines.

(** * The further theorems at work *)

Lemma keyed_call_frame_witness :
  call_key (call_Get (V:=string) "session") = Some "session" /\
  mu sample_cache = false /\
  exists tc',
    run keys_in_order 10 (call_prog (call_Get "session")) sample_cache =
      Returned (call_result (call_Get "session")
                  (items sample_cache !! "session")) tc' /\
    (forall k', k' ≠ "session" -> items tc' !! k' = items sample_cache !! k') /\
    interval tc' = interval sample_cache /\ mu tc' = mu sample_cache.
Proof.
  split; [reflexivity|]. split; [reflexivity|].
  apply (keyed_call_frame keys_in_order 10 (call_Get "session") "session"
           sample_cache); reflexivity.
Defined.

Lemma calls_on_distinct_keys_commute_witness :
  call_key (call_Get (V:=string) "session") = Some "session" /\
  call_key (call_Delete (V:=string) "token") = Some "token" /\
  "session" ≠ "token" /\
  mu sample_cache = false /\
  exists r1 r2 tc',
    run_calls keys_in_order
      [(10, call_Get "session"); (20, call_Delete "token")] sample_cache =
      Returned [r1; r2] tc' /\
    run_calls keys_in_order
      [(20, call_Delete "token"); (10, call_Get "session")] sample_cache =
      Returned [r2; r1] tc'.
Proof.
  assert (Hne : "session" ≠ "token") by discriminate.
  split; [reflexivity|]. split; [reflexivity|]. split; [exact Hne|].
  split; [reflexivity|].
  apply (calls_on_distinct_keys_commute keys_in_order 10 20
           (call_Get "session") (call_Delete "token") "session" "token"
           sample_cache); [reflexivity | reflexivity | exact Hne | reflexivity].
Defined.

Lemma Put_makes_entry_fixed_witness :
  mu sample_cache = false /\
  exists tc1,
    run keys_in_order 10 (Put "session" (Some "bob"%string) Hour) sample_cache =
      Returned tt tc1 /\
    items tc1 !! "session" = Some (mkItem (Some "bob"%string) 3600000000010 false 0) /\
    run keys_in_order 20 (Get "session") tc1 =
      Returned (Some "bob"%string, no_error) tc1.
Proof.
  split; [reflexivity|].
  apply (Put_makes_entry_fixed keys_in_order 10 20 "session"
           (Some "bob"%string) Hour sample_cache); reflexivity.
Defined.

Lemma last_store_wins_witness :
  mu sample_cache = false /\
  exists tc2,
    run_calls keys_in_order
      [(10, call_PutRefreshing "k" (Some "v1"%string) Hour);
       (20, call_Put "k" (Some "v2"%string) Minute)] sample_cache =
      Returned [res_none; res_none] tc2 /\
    run_calls keys_in_order
      [(20, call_Put "k" (Some "v2"%string) Minute)] sample_cache =
      Returned [res_none] tc2.
Proof.
  split; [reflexivity|].
  apply (last_store_wins keys_in_order 10 20 "k" true false
           (Some "v1"%string) (Some "v2"%string) Hour Minute sample_cache);
    reflexivity.
Defined.

Lemma Delete_then_reads_witness :
  mu sample_cache = false /\
  exists tc1,
    run_calls keys_in_order
      [(10, call_Delete "session"); (20, call_Get "session");
       (30, call_KeyExists "session")] sample_cache =
    Returned [res_none; res_value None item_not_found; res_bool false] tc1 /\
    items tc1 = delete "session" (items sample_cache).
Proof.
  split; [reflexivity|].
  apply (Delete_then_reads keys_in_order 10 20 30 "session" sample_cache);
    reflexivity.
Defined.

Lemma KeyExists_agrees_with_Get_witness :
  mu sample_cache = false /\
  exists b r tc',
    run keys_in_order 10 (KeyExists "token") sample_cache =
      Returned b sample_cache /\
    run keys_in_order 20 (Get "token") sample_cache = Returned r tc' /\
    (b = true <-> r.2 = no_error) /\
    (b = false <-> r = (None, item_not_found)).
Proof.
  split; [reflexivity|].
  apply (KeyExists_agrees_with_Get keys_in_order 10 20 "token" sample_cache);
    reflexivity.
Defined.

Lemma PutRefreshing_then_Get_witness :
  mu sample_cache = false /\
  exists tc2,
    run_calls keys_in_order
      [(10, call_PutRefreshing "k" (Some "v"%string) Hour); (500, call_Get "k")]
      sample_cache =
      Returned [res_none; res_value (Some "v"%string) no_error] tc2 /\
    items tc2 !! "k" = Some (mkItem (Some "v"%string) 3600000000500 true Hour).
Proof.
  split; [reflexivity|].
  apply (PutRefreshing_then_Get keys_in_order 10 500 "k" (Some "v"%string)
           Hour sample_cache); reflexivity.
Defined.

Lemma RemoveExpired_twice_witness :
  (forall m : gmap string (cacheItem string),
     keys_in_order m ≡ₚ (map_to_list m).*1) /\
  mu sample_cache = false /\
  exists tc2,
    run_calls keys_in_order
      [(2000, call_RemoveExpired); (500, call_RemoveExpired)] sample_cache =
      Returned [res_none; res_none] tc2 /\
    run keys_in_order (Z.max 2000 500) RemoveExpired sample_cache =
      Returned tt tc2.
Proof.
  split; [exact keys_in_order_perm|]. split; [reflexivity|].
  apply (RemoveExpired_twice keys_in_order keys_in_order_perm 2000 500
           sample_cache); reflexivity.
Defined.

Lemma refresh_keeps_alive_witness :
  let visits : list (Time * Time) :=
    [(5000, 6000); (20 * Minute, 45 * Minute); (70 * Minute, 100 * Minute)] in
  (forall m : gmap string (cacheItem string),
     keys_in_order m ≡ₚ (map_to_list m).*1) /\
  mu sample_cache = false /\
  items sample_cache !! "session" = Some session_item /\
  KeepRefreshing session_item = true /\
  Forall (fun ts : Time * Time => ts.2 <= ts.1 + RefreshBy session_item) visits /\
  exists tc' it',
    run_calls keys_in_order (flat_map (visit "session") visits) sample_cache =
      Returned (flat_map (fun _ => [res_value (Content session_item) no_error;
                                    res_none]) visits) tc' /\
    items tc' !! "session" = Some it' /\
    Content it' = Content session_item /\ KeepRefreshing it' = true /\
    RefreshBy it' = RefreshBy session_item.
Proof.
  intros visits.
  assert (Hvisits : Forall (fun ts : Time * Time =>
                              ts.2 <= ts.1 + RefreshBy session_item) visits)
    by (repeat constructor; vm_compute; discriminate).
  split; [exact keys_in_order_perm|]. split; [reflexivity|].
  split; [reflexivity|]. split; [reflexivity|]. split; [exact Hvisits|].
  apply (refresh_keeps_alive keys_in_order keys_in_order_perm "session"
           sample_cache session_item visits);
    [reflexivity | reflexivity | reflexivity | exact Hvisits].
Defined.

Lemma refresh_gap_expires_witness :
  (forall m : gmap string (cacheItem string),
     keys_in_order m ≡ₚ (map_to_list m).*1) /\
  mu sample_cache = false /\
  items sample_cache !! "session" = Some session_item /\
  KeepRefreshing session_item = true /\
  2000 + RefreshBy session_item < 31 * Minute + 2000 /\
  exists tc',
    run_calls keys_in_order
      [(2000, call_Get "session"); (31 * Minute + 2000, call_RemoveExpired);
       (Hour, call_Get "session")] sample_cache =
    Returned [res_value (Content session_item) no_error; res_none;
              res_value None item_not_found] tc'.
Proof.
  assert (Hgap : 2000 + RefreshBy session_item < 31 * Minute + 2000)
    by reflexivity.
  split; [exact keys_in_order_perm|]. split; [reflexivity|].
  split; [reflexivity|]. split; [reflexivity|]. split; [exact Hgap|].
  apply (refresh_gap_expires keys_in_order keys_in_order_perm 2000
           (31 * Minute + 2000) Hour "session" sample_cache session_item);
    [reflexivity | reflexivity | reflexivity | exact Hgap].
Defined.

Lemma fixed_entry_expires_despite_reads_witness :
  let cs : list (Time * call string) :=
    [(20, call_Get "k"); (50, call_RemoveExpired); (105, call_Get "k");
     (108, call_KeyExists "k")] in
  (forall m : gmap string (cacheItem string),
     keys_in_order m ≡ₚ (map_to_list m).*1) /\
  mu sample_cache = false /\
  Forall (fun c => leaves_entry "k" c.2 = true) cs /\
  10 + 100 < 111 /\
  exists rs tc',
    run_calls keys_in_order
      ((10, call_Put "k" (Some "v"%string) 100) :: cs ++
       [(111, call_RemoveExpired); (112, call_Get "k")]) sample_cache =
    Returned (res_none :: rs ++ [res_none; res_value None item_not_found]) tc'.
Proof.
  intros cs.
  assert (Hcs : Forall (fun c : Time * call string =>
                          leaves_entry "k" c.2 = true) cs)
    by (repeat constructor).
  assert (Hdue : 10 + 100 < 111) by reflexivity.
  split; [exact keys_in_order_perm|]. split; [reflexivity|].
  split; [exact Hcs|]. split; [exact Hdue|].
  apply (fixed_entry_expires_despite_reads keys_in_order keys_in_order_perm
           10 111 112 "k" (Some "v"%string) 100 cs sample_cache);
    [reflexivity | exact Hcs | exact Hdue].
Defined.

Lemma fixed_entry_lasts_until_due_witness :
  let cs : list (Time * call string) :=
    [(20, call_Get "k"); (50, call_RemoveExpired); (105, call_KeyExists "k");
     (110, call_RemoveExpired)] in
  (forall m : gmap string (cacheItem string),
     keys_in_order m ≡ₚ (map_to_list m).*1) /\
  mu sample_cache = false /\
  Forall (fun c : Time * call string =>
            leaves_entry "k" c.2 = true /\
            (c.2 = call_RemoveExpired -> c.1 <= 10 + 100)) cs /\
  exists rs tc',
    run_calls keys_in_order
      ((10, call_Put "k" (Some "v"%string) 100) :: cs) sample_cache =
      Returned (res_none :: rs) tc' /\
    items tc' !! "k" = Some (mkItem (Some "v"%string) (Add 10 100) false 0).
Proof.
  intros cs.
  assert (Hcs : Forall (fun c : Time * call string =>
                          leaves_entry "k" c.2 = true /\
                          (c.2 = call_RemoveExpired -> c.1 <= 10 + 100)) cs)
    by (repeat (constructor; [split; [reflexivity | intros _; simpl; lia]|]);
        constructor).
  split; [exact keys_in_order_perm|]. split; [reflexivity|].
  split; [exact Hcs|].
  apply (fixed_entry_lasts_until_due keys_in_order keys_in_order_perm
           10 "k" (Some "v"%string) 100 cs sample_cache);
    [reflexivity | exact Hcs].
Defined.

Lemma calls_keep_interval_and_release_mutex_witness :
  let cs : list (Time * call string) :=
    [(10, call_Put "k" None (-5)); (20, call_Get "absent");
     (30, call_RemoveExpired); (40, call_Delete "k");
     (50, call_PutRefreshing "k" (Some "v"%string) 0)] in
  mu sample_cache = false /\
  exists rs tc',
    run_calls keys_in_order cs sample_cache = Returned rs tc' /\
    length rs = length cs /\
    interval tc' = interval sample_cache /\ mu tc' = false.
Proof.
  intros cs. split; [reflexivity|].
  apply (calls_keep_interval_and_release_mutex keys_in_order cs sample_cache);
    reflexivity.
Defined.

Lemma startInterval_sweeps_forever_witness :
  let c0 : config string := (New_go empty_config).2 in
  let h : heap string := commit c0.1 0%nat sample_cache in
  c0.2 !! 0%nat = Some (startInterval 0%nat) /\
  deref h 0%nat = Some sample_cache /\
  mu sample_cache = false /\
  ((forall sched,
      Forall (fun s : nat * Time => s.1 = 0%nat) sched ->
      exists c' g',
        gsteps keys_in_order sched (h, c0.2) = Some c' /\
        c'.2 !! 0%nat = Some g' /\
        loop g' = Some (startInterval_body;; Ret res_none)) /\
   (forall turns,
      exists rs tc',
        run_calls keys_in_order
          ((fun t => (t, call_RemoveExpired)) <$> turns) sample_cache =
          Returned rs tc' /\
        gsteps keys_in_order
          (turns_schedule keys_in_order 0%nat turns (items sample_cache))
          (h, c0.2) = Some (commit h 0%nat tc', c0.2) /\
        Forall (fun s : nat * Time => s.1 = 0%nat /\ s.2 ∈ turns)
          (turns_schedule keys_in_order 0%nat turns (items sample_cache)) /\
        (7 * length turns <=
         length (turns_schedule keys_in_order 0%nat turns
                   (items sample_cache)))%nat)) /\
  turns_schedule keys_in_order 0%nat [500; 1500] (items sample_cache) =
    replicate 9 (0%nat, 500) ++ replicate 11 (0%nat, 1500) /\
  exists c',
    gsteps keys_in_order
      (turns_schedule keys_in_order 0%nat [500; 1500] (items sample_cache))
      (h, c0.2) = Some c' /\
    deref c'.1 0%nat = Some (mkCache ∅ Minute false).
Proof.
  intros c0 h.
  split; [reflexivity|]. split; [reflexivity|]. split; [reflexivity|].
  split.
  - apply (startInterval_sweeps_forever keys_in_order 0%nat h c0.2 0%nat
             sample_cache); reflexivity.
  - split; [vm_compute; reflexivity|].
    eexists. split; vm_compute; reflexivity.
Defined.

Lemma same_pointer_excludes_witness :
  let h : heap string := (New_go empty_config).2.1 in
  let sweeps : list ptr := [0%nat] in
  let callers : list (ptr * list (call string)) :=
    [(0%nat, [call_Put "k" (Some "v"%string) Hour]);
     (0%nat, [call_Get "k"])] in
  let sched : list (nat * Time) :=
    [(1%nat, 10); (0%nat, 20); (0%nat, 20); (1%nat, 30); (1%nat, 30);
     (1%nat, 30); (2%nat, 40); (2%nat, 40)] in
  exists c',
    gsteps keys_in_order sched
      (h, (startInterval <$> sweeps) ++
          ((fun pc => mkGo pc.1 (calls_prog pc.2) None false) <$> callers))
      = Some c' /\
    forall i j gi gj,
      c'.2 !! i = Some gi -> c'.2 !! j = Some gj ->
      critical gi = true -> critical gj = true ->
      recv gi = recv gj -> i = j.
Proof.
  intros h sweeps callers sched.
  eexists. split; [vm_compute; reflexivity|].
  apply (same_pointer_excludes keys_in_order h sweeps callers sched).
  vm_compute; reflexivity.
Defined.

Lemma constructor_copy_can_be_locked_witness :
  let c : config string := (New_go empty_config).2 in
  Forall (fun g => is_Some (vars c.1 !! recv g)) c.2 /\
  exists value c1,
    NewWithCustomInterval keys_in_order 0
      [(length c.2, 5); (length c.2, 5); (length c.2, 5)] c =
      Some (value, c1) /\
    v_interval value = 0 /\ v_mu value = true /\
    let sessionStore := (assign_var value c1).1 in
    let c' := (assign_var value c1).2 in
    (exists tc,
       deref c'.1 sessionStore = Some tc /\ items tc = ∅ /\ mu tc = true /\
       forall now call, run keys_in_order now (call_prog call) tc = Blocked) /\
    forall sched c'',
      gsteps keys_in_order sched c' = Some c'' ->
      exists v, vars c''.1 !! sessionStore = Some v /\ v_mu v = true.
Proof.
  intros c.
  assert (Hrecv : Forall (fun g => is_Some (vars c.1 !! recv g)) c.2)
    by (repeat constructor; eexists; vm_compute; reflexivity).
  split; [exact Hrecv|].
  apply (constructor_copy_can_be_locked keys_in_order 0 5 c Hrecv).
Defined.
